(** * gogotelehash: path priorities, bridge routing, identities, UDP
      addresses and channel opening

    A shallow embedding of the parts of the telehash endpoint that the
    specification makes checkable statements about:

    - [NetPath]  : [IPv4net_path] scoring (net_path_ipv4.go);
    - [Bridge]   : the bridge module's route tables, its exchange-closed
                   observer and the wrapped transport's read loop;
    - [SHA256]   : the digest the identities are built from;
    - [E3x]      : [NewAddr], the identity constructor;
    - [UDP]      : the UDP transport's address codec and [WriteMessage];
    - [Peer]     : [peer_t.push_rcv_pkt], the inbound channel dispatch.

    Go's [int] is taken to be the 64-bit two's complement integer of the
    supported platforms; bytes are integers in [0, 255]; a pointer is an
    [option] whose [None] is [nil]; a Go map is a [gmap] whose lookup of an
    absent key yields the zero value. *)

From Stdlib Require Import ZArith Lia Ascii String.
From stdpp Require Import gmap strings list fin_maps.

Local Open Scope Z_scope.

(** ** Machine integers *)

Definition int_min : Z := - 2 ^ 63.
Definition int_max : Z := 2 ^ 63 - 1.

(** Two's complement wrap-around of Go's [int] arithmetic. *)
Definition int_wrap (z : Z) : Z := (z + 2 ^ 63) mod 2 ^ 64 - 2 ^ 63.

Lemma int_wrap_small z : int_min <= z <= int_max -> int_wrap z = z.
Proof.
  unfold int_wrap, int_min, int_max. intros Hz.
  rewrite Z.mod_small by lia. lia.
Qed.

Lemma int_wrap_range z : int_min <= int_wrap z <= int_max.
Proof.
  unfold int_wrap, int_min, int_max.
  pose proof (Z.mod_pos_bound (z + 2 ^ 63) (2 ^ 64) ltac:(lia)). lia.
Qed.

Lemma int_wrap_shift z k : int_wrap (z + k * 2 ^ 64) = int_wrap z.
Proof.
  unfold int_wrap.
  replace (z + k * 2 ^ 64 + 2 ^ 63) with (z + 2 ^ 63 + k * 2 ^ 64) by ring.
  by rewrite Z_mod_plus_full.
Qed.

Lemma int_wrap_decomp z : exists k, int_wrap z = z + k * 2 ^ 64.
Proof.
  exists (- ((z + 2 ^ 63) / 2 ^ 64)). unfold int_wrap.
  rewrite Zmod_eq_full by discriminate. ring.
Qed.

Lemma int_wrap_add_l a b : int_wrap (int_wrap a + b) = int_wrap (a + b).
Proof.
  destruct (int_wrap_decomp a) as [k ->].
  replace (a + k * 2 ^ 64 + b) with (a + b + k * 2 ^ 64) by ring.
  apply int_wrap_shift.
Qed.

Lemma int_wrap_add_r a b : int_wrap (a + int_wrap b) = int_wrap (a + b).
Proof. by rewrite (Z.add_comm a), int_wrap_add_l, (Z.add_comm b). Qed.

Lemma int_wrap_sub_r a b : int_wrap (a - int_wrap b) = int_wrap (a - b).
Proof.
  destruct (int_wrap_decomp b) as [k ->].
  replace (a - (b + k * 2 ^ 64)) with (a - b + (- k) * 2 ^ 64) by ring.
  apply int_wrap_shift.
Qed.

#[global] Arguments int_wrap : simpl never.

(** ** IPv4 network paths (package telehash, net_path_ipv4.go) *)

Module NetPath.

(** The declaration of [ip_addr_category] lies outside the sources at hand.
    [Priority] and its siblings name [ip_localhost], [ip_lan] and [ip_wan];
    every other value of the type takes the [default] branch and is
    [ip_other] here. *)
Inductive ip_addr_category : Set :=
  | ip_other
  | ip_localhost
  | ip_lan
  | ip_wan.

#[global] Instance ip_addr_category_eq_dec : EqDecision ip_addr_category.
Proof. solve_decision. Defined.

(** Modelled from the spec: [net_path_priority], the per-path dynamic
    priority delta, whose declaration is missing from the sources.  It is a
    counter read by [Get], moved by [Add] and zeroed by [Reset]; [Get]
    returns and [Add] takes a Go [int]. *)
Definition net_path_priority : Set := Z.

Definition Get (d : net_path_priority) : Z := d.
Definition Add (i : Z) (d : net_path_priority) : net_path_priority :=
  int_wrap (d + i).
Definition Reset (d : net_path_priority) : net_path_priority := 0.

Record IPv4net_path : Set := mk_IPv4net_path {
  cat : ip_addr_category;
  IP : list Z;
  Port : Z;
  hash : Z;
  priority_delta : net_path_priority
}.

Definition with_delta (n : IPv4net_path) (d : net_path_priority) : IPv4net_path :=
  {| cat := cat n; IP := IP n; Port := Port n; hash := hash n;
     priority_delta := d |}.

Definition Priority (n : IPv4net_path) : Z :=
  match cat n with
  | ip_localhost => int_wrap (8 + Get (priority_delta n))
  | ip_lan => int_wrap (6 + Get (priority_delta n))
  | ip_wan => int_wrap (4 + Get (priority_delta n))
  | ip_other => int_wrap (0 + Get (priority_delta n))
  end.

Definition Demote (n : IPv4net_path) : IPv4net_path :=
  with_delta n (Add (-1) (priority_delta n)).

Definition Break (n : IPv4net_path) : IPv4net_path :=
  with_delta n (Add (int_wrap (-3 - Priority n)) (priority_delta n)).

Definition ResetPriority (n : IPv4net_path) : IPv4net_path :=
  with_delta n (Reset (priority_delta n)).

Definition IncludeInConnect (n : IPv4net_path) : bool :=
  if decide (cat n = ip_wan) then true else false.

Definition SendNatBreaker (n : IPv4net_path) : bool :=
  bool_decide (cat n = ip_wan).

(** [AddressForSeek]; the text of the IP is [net.IP.String]'s. *)
Definition AddressForSeek (IP_String : list Z -> string) (n : IPv4net_path)
    : string * Z * bool :=
  if decide (cat n = ip_wan) then (IP_String (IP n), Port n, true)
  else (EmptyString, 0, false).

(** The three calls that move the dynamic delta, and a run of them on one
    path. *)
Inductive call : Set := CallDemote | CallBreak | CallResetPriority.

Definition do_call (n : IPv4net_path) (c : call) : IPv4net_path :=
  match c with
  | CallDemote => Demote n
  | CallBreak => Break n
  | CallResetPriority => ResetPriority n
  end.

(** The bases the specification lists for the three IP categories, and the
    base of the [default] branch. *)
Definition category_base (c : ip_addr_category) : Z :=
  match c with
  | ip_localhost => 8
  | ip_lan => 6
  | ip_wan => 4
  | ip_other => 0
  end.

(** The score of a path in unbounded arithmetic is an [int]. *)
Definition score_fits (n : IPv4net_path) : Prop :=
  int_min <= category_base (cat n) + Get (priority_delta n) <= int_max.

Lemma category_base_bounds c : 0 <= category_base c <= 8.
Proof. destruct c; simpl; lia. Qed.

Lemma Priority_wrap n :
  Priority n = int_wrap (category_base (cat n) + Get (priority_delta n)).
Proof. unfold Priority. by destruct (cat n). Qed.

Lemma Priority_exact n :
  score_fits n ->
  Priority n = category_base (cat n) + Get (priority_delta n).
Proof. intros Hfit. rewrite Priority_wrap. by apply int_wrap_small. Qed.

(** Whatever the delta was, a break leaves the path at score -3. *)
Lemma Priority_Break n : Priority (Break n) = -3.
Proof.
  rewrite Priority_wrap. unfold Break, with_delta, Add, Get. simpl.
  rewrite Priority_wrap. unfold Get.
  set (b := category_base (cat n)). set (d := priority_delta n).
  destruct (int_wrap_decomp (b + d)) as [k1 ->].
  destruct (int_wrap_decomp (-3 - (b + d + k1 * 2 ^ 64))) as [k2 ->].
  destruct (int_wrap_decomp
              (d + (-3 - (b + d + k1 * 2 ^ 64) + k2 * 2 ^ 64))) as [k3 ->].
  replace (b + (d + (-3 - (b + d + k1 * 2 ^ 64) + k2 * 2 ^ 64) + k3 * 2 ^ 64))
    with (-3 + (k2 + k3 - k1) * 2 ^ 64) by ring.
  by rewrite int_wrap_shift.
Qed.

Lemma Demote_delta n :
  Get (priority_delta (Demote n)) = int_wrap (Get (priority_delta n) - 1).
Proof. reflexivity. Qed.

Lemma Break_delta n :
  Get (priority_delta (Break n)) =
  int_wrap (Get (priority_delta n) - (3 + Priority n)).
Proof.
  unfold Break, with_delta, Add, Get. simpl. rewrite int_wrap_add_r.
  f_equal. ring.
Qed.

(** C4 as stated fails: the sum is formed in Go's [int], so a loopback path
    whose delta is the largest [int] scores 7 above the smallest [int], which
    is not 8 above its delta. *)
Lemma Priority_loopback_wraps :
  let n := mk_IPv4net_path ip_localhost [127; 0; 0; 1] 4242 0 int_max in
  Priority n = int_min + 7 /\
  Priority n <> 8 + Get (priority_delta n).
Proof. vm_compute. split; [reflexivity | discriminate]. Qed.

(** C4 (amended): the score of an IPv4 path is its category base plus its
    dynamic delta in Go's [int] arithmetic, so it is exactly that sum
    whenever the sum is an [int]; the base is 8 for loopback, 6 for LAN, 4
    for WAN and 0 for a path of any other category, and never 1. *)
Theorem Priority_category_plus_delta (n : IPv4net_path) :
  Priority n = int_wrap (category_base (cat n) + Get (priority_delta n)) /\
  (int_min <= category_base (cat n) + Get (priority_delta n) <= int_max ->
   Priority n = category_base (cat n) + Get (priority_delta n)) /\
  category_base ip_localhost = 8 /\
  category_base ip_lan = 6 /\
  category_base ip_wan = 4 /\
  category_base ip_other = 0 /\
  category_base (cat n) <> 1.
Proof.
  split_and!; try done.
  - apply Priority_wrap.
  - apply Priority_exact.
  - by destruct (cat n).
Qed.

Lemma Priority_category_plus_delta_witness :
  let n := mk_IPv4net_path ip_lan [192; 168; 1; 7] 4242 0 (int_max - 6) in
  Priority n = int_max.
Proof.
  cbv zeta.
  destruct (Priority_category_plus_delta
              (mk_IPv4net_path ip_lan [192; 168; 1; 7] 4242 0 (int_max - 6)))
    as (_ & H & _).
  rewrite H.
  - reflexivity.
  - unfold int_min, int_max; simpl; unfold Get; lia.
Defined.

(** C5 as stated fails at the ends of [int]: a send failure at the smallest
    delta leaves the largest one, and a break of a loopback path at the
    largest delta leaves -11, neither of which is the delta less the amount
    the specification names. *)
Lemma Demote_and_Break_wrap :
  let low := mk_IPv4net_path ip_wan [8; 8; 8; 8] 4242 0 int_min in
  let high := mk_IPv4net_path ip_localhost [127; 0; 0; 1] 4242 0 int_max in
  Get (priority_delta (Demote low)) = int_max /\
  Get (priority_delta (Demote low)) <> Get (priority_delta low) - 1 /\
  Get (priority_delta (Break high)) = -11 /\
  Get (priority_delta (Break high))
    <> Get (priority_delta high) - (3 + Priority high).
Proof. vm_compute. split_and!; (reflexivity || discriminate). Qed.

(** C5 (amended): receiving resets the delta to 0; a send failure lowers it
    by 1 and a break lowers it by 3 plus the current score, both in Go's
    [int] arithmetic, so by exactly that much whenever the result is an
    [int]; after a break the score is -3, whatever the delta was. *)
Theorem priority_delta_updates (n : IPv4net_path) :
  Get (priority_delta (ResetPriority n)) = 0 /\
  Get (priority_delta (Demote n)) = int_wrap (Get (priority_delta n) - 1) /\
  Get (priority_delta (Break n)) =
    int_wrap (Get (priority_delta n) - (3 + Priority n)) /\
  Priority (Break n) = -3 /\
  (int_min <= Get (priority_delta n) - 1 <= int_max ->
   Get (priority_delta (Demote n)) = Get (priority_delta n) - 1) /\
  (int_min <= Get (priority_delta n) - (3 + Priority n) <= int_max ->
   Get (priority_delta (Break n)) =
     Get (priority_delta n) - (3 + Priority n)).
Proof.
  split_and!.
  - reflexivity.
  - apply Demote_delta.
  - apply Break_delta.
  - apply Priority_Break.
  - intros Hfit. rewrite Demote_delta. by apply int_wrap_small.
  - intros Hfit. rewrite Break_delta. by apply int_wrap_small.
Qed.

Lemma priority_delta_updates_witness :
  let n := mk_IPv4net_path ip_wan [8; 8; 8; 8] 4242 0 (-2) in
  Get (priority_delta (Demote n)) = -3 /\
  Get (priority_delta (Break n)) = -7.
Proof.
  cbv zeta.
  destruct (priority_delta_updates
              (mk_IPv4net_path ip_wan [8; 8; 8; 8] 4242 0 (-2)))
    as (_ & _ & _ & _ & HD & HB).
  split.
  - rewrite HD; [reflexivity |].
    unfold int_min, int_max; simpl; unfold Get; lia.
  - rewrite HB; [reflexivity |].
    vm_compute. split; discriminate.
Defined.

(** C9: a path asks for the NAT-breaker keepalive exactly when its category
    is WAN; loopback, LAN and every other category never do. *)
Theorem SendNatBreaker_iff_wan (n : IPv4net_path) :
  (SendNatBreaker n = true <-> cat n = ip_wan) /\
  (cat n = ip_localhost \/ cat n = ip_lan \/ cat n = ip_other ->
   SendNatBreaker n = false).
Proof.
  unfold SendNatBreaker. split.
  - apply bool_decide_eq_true.
  - intros H. apply bool_decide_eq_false. intros Hw.
    rewrite Hw in H. intuition discriminate.
Qed.

(** No run of [Demote], [Break] and [ResetPriority] touches the category,
    the IP, the port or the cached hash of a path, and a [ResetPriority]
    after any such run puts the score back at the bare category base. *)
Theorem ResetPriority_after_calls (n : IPv4net_path) (calls : list call) :
  let n' := foldl do_call n calls in
  cat n' = cat n /\ IP n' = IP n /\ Port n' = Port n /\ hash n' = hash n /\
  Priority (ResetPriority n') = category_base (cat n).
Proof.
  simpl. assert (Hkept : cat (foldl do_call n calls) = cat n /\
                         IP (foldl do_call n calls) = IP n /\
                         Port (foldl do_call n calls) = Port n /\
                         hash (foldl do_call n calls) = hash n).
  { revert n. induction calls as [|c calls IH]; intros n; [done |].
    cbn [foldl]. destruct (IH (do_call n c)) as (-> & -> & -> & ->).
    by destruct c. }
  destruct Hkept as (Hc & Hi & Hp & Hh). repeat split; try done.
  rewrite Priority_wrap. cbn. rewrite Hc. unfold Reset, Get.
  pose proof (category_base_bounds (cat n)).
  rewrite Z.add_0_r. apply int_wrap_small. unfold int_min, int_max. lia.
Qed.

Lemma Demote_iter_wrap (k : nat) (n : IPv4net_path) :
  cat (Nat.iter k Demote n) = cat n /\
  forall b,
    int_wrap (b + Get (priority_delta (Nat.iter k Demote n))) =
    int_wrap (b + Get (priority_delta n) - Z.of_nat k).
Proof.
  induction k as [|k [Hc IH]].
  - split; [done |]. intros b. simpl. f_equal. lia.
  - rewrite Nat.iter_succ. set (m := Nat.iter k Demote n) in *.
    split; [exact Hc |]. intros b. rewrite Demote_delta.
    rewrite int_wrap_add_r.
    replace (b + (Get (priority_delta m) - 1))
      with (b - 1 + Get (priority_delta m)) by ring.
    rewrite IH. f_equal. lia.
Qed.

(** [k] send failures in a row lower the score by [k] in Go's [int]
    arithmetic, whatever the delta; the score is exactly the earlier score
    less [k] whenever that difference is an [int]. *)
Theorem Priority_after_demotes (k : nat) (n : IPv4net_path) :
  Priority (Nat.iter k Demote n) = int_wrap (Priority n - Z.of_nat k) /\
  (int_min <= Priority n - Z.of_nat k ->
   Priority (Nat.iter k Demote n) = Priority n - Z.of_nat k).
Proof.
  assert (Hwrap : Priority (Nat.iter k Demote n)
                  = int_wrap (Priority n - Z.of_nat k)).
  { destruct (Demote_iter_wrap k n) as [Hc Hd].
    rewrite (Priority_wrap (Nat.iter k Demote n)), Hc, Hd.
    rewrite (Priority_wrap n).
    replace (int_wrap (category_base (cat n) + Get (priority_delta n))
             - Z.of_nat k)
      with (int_wrap (category_base (cat n) + Get (priority_delta n))
            + - Z.of_nat k) by ring.
    rewrite int_wrap_add_l. reflexivity. }
  split; [exact Hwrap |].
  intros Hlo. rewrite Hwrap. apply int_wrap_small.
  pose proof (int_wrap_range
                (category_base (cat n) + Get (priority_delta n))) as Hr.
  rewrite <- Priority_wrap in Hr. lia.
Qed.

Lemma Priority_after_demotes_witness :
  let n := mk_IPv4net_path ip_localhost [127; 0; 0; 1] 4242 0 0 in
  Priority (Nat.iter 11 Demote n) = -3.
Proof.
  cbv zeta.
  destruct (Priority_after_demotes 11
              (mk_IPv4net_path ip_localhost [127; 0; 0; 1] 4242 0 0))
    as [_ H].
  rewrite H.
  - reflexivity.
  - vm_compute. discriminate.
Defined.

(** Only WAN paths are advertised: [AddressForSeek] reports an address
    exactly when [IncludeInConnect] and [SendNatBreaker] hold, and for any
    other category it gives the empty address and port 0. *)
Theorem AddressForSeek_wan_only (IP_String : list Z -> string)
    (n : IPv4net_path) :
  (AddressForSeek IP_String n).2 = IncludeInConnect n /\
  IncludeInConnect n = SendNatBreaker n /\
  AddressForSeek IP_String n =
    (if SendNatBreaker n then (IP_String (IP n), Port n, true)
     else (EmptyString, 0, false)).
Proof.
  unfold AddressForSeek, IncludeInConnect, SendNatBreaker.
  destruct (decide (cat n = ip_wan)) as [Hw|Hw].
  - rewrite bool_decide_eq_true_2 by done. done.
  - rewrite bool_decide_eq_false_2 by done. done.
Qed.

End NetPath.

(** ** The bridge module (package bridge) *)

Module Bridge.

(** [cipherset.Token] is a [[16]byte]; [*e3x.Exchange] is a pointer, compared
    by identity, whose [None] is [nil]. *)
Abbreviation Token := (list Z).
Abbreviation Exchange := nat.

Record module : Type := mk_module {
  packetRoutes : gmap Token (option Exchange);
  handshakeRoutes : gmap Token (option Exchange)
}.

(** [m[k]] on a Go map of pointers: the zero value [nil] for an absent key. *)
Definition index (m : gmap Token (option Exchange)) (k : Token) : option Exchange :=
  default None (m !! k).

Definition newBridge : module :=
  {| packetRoutes := ∅; handshakeRoutes := ∅ |}.

Definition RouteToken (token : Token) (source target : option Exchange)
    (md : module) : module :=
  {| packetRoutes := <[token := source]> (packetRoutes md);
     handshakeRoutes :=
       match target with
       | Some _ => <[token := target]> (handshakeRoutes md)
       | None => handshakeRoutes md
       end |}.

Definition BreakRoute (token : Token) (md : module) : module :=
  {| packetRoutes := delete token (packetRoutes md);
     handshakeRoutes := delete token (handshakeRoutes md) |}.

Definition lookupToken (md : module) (token : Token)
    : option Exchange * option Exchange :=
  (index (packetRoutes md) token, index (handshakeRoutes md) token).

(** One iteration of either [range] loop of [on_exchange_closed]: the entry
    [(token, x)] is dropped from both tables when [x] is the closed
    exchange. *)
Definition close_step (closed : option Exchange) (md : module)
    (entry : Token * option Exchange) : module :=
  if decide (closed = entry.2) then BreakRoute entry.1 md else md.

(** [on_exchange_closed]: a pass over the packet routes, then a pass over
    what is left of the handshake routes.  A pass deletes nothing from the
    table it ranges over but the entry it stands on, so it visits every entry
    the table had when the pass began. *)
Definition on_exchange_closed (closed : option Exchange) (md : module) : module :=
  let mod1 := foldl (close_step closed) md (map_to_list (packetRoutes md)) in
  foldl (close_step closed) mod1 (map_to_list (handshakeRoutes mod1)).

(** *** The wrapped transport *)

Inductive msgtype : Set := PKT | HDR.

(** Modelled from the spec: [cipherset.ExtractToken], missing from the
    sources.  A line frame is "HEAD_LEN ‖ 16-byte token ‖ ...": the token is
    the 16 bytes that follow the two length bytes.  The theorems on the read
    loop hold for any extraction; the example runs the loop with this
    one. *)
Definition spec_ExtractToken (buf : list Z) : Token := take 16 (drop 2 buf).

Section Transport.

(** [transports.Addr], [cipherset.ExtractToken] and [Exchange.ActivePath]
    come from packages outside the sources at hand. *)
Context {Addr : Type}.
Variable ExtractToken : list Z -> Token.
Variable ActivePath : Exchange -> Addr.

(** What one [t.t.ReadMessage(p)] of the wrapped transport hands back:
    an error triple, or [n] bytes [p[:n]] from [src]. *)
Inductive read_result : Type :=
  | ReadErr (n : Z) (src : option Addr) (err : string)
  | ReadFrame (buf : list Z) (src : Addr).

(** A [t.t.WriteMessage(buf, ex.ActivePath())]; its error is only logged. *)
Record forward : Type := mk_forward {
  fwd_type : msgtype;
  fwd_bytes : list Z;
  fwd_dst : Addr
}.

Inductive outcome : Type :=
  | Returned (r : read_result) (pending : list read_result) (sent : list forward)
  | Waiting (sent : list forward)
  | Fault (sent : list forward).

(** [buf[0] == 0 && buf[1] == 1], with Go's bounds checks and short-circuit
    evaluation; [None] is the index-out-of-range panic. *)
Definition is_handshake (buf : list Z) : option bool :=
  match buf !! 0%nat with
  | None => None
  | Some b0 =>
      if decide (b0 = 0) then
        match buf !! 1%nat with
        | None => None
        | Some b1 => Some (bool_decide (b1 = 1))
        end
      else Some false
  end.

(** [transport.ReadMessage]: the loop runs over the reads the wrapped
    transport will deliver, in order; with none left it waits inside
    [t.t.ReadMessage].  [ActivePath] reads the state of its receiver, so a
    [nil] exchange faults. *)
Fixpoint ReadMessage (md : module) (reads : list read_result)
    (sent : list forward) : outcome :=
  match reads with
  | [] => Waiting sent
  | ReadErr n src err :: pending => Returned (ReadErr n src err) pending sent
  | ReadFrame buf src :: pending =>
      let token := ExtractToken buf in
      let '(source, target) := lookupToken md token in
      match source with
      | None => Returned (ReadFrame buf src) pending sent
      | Some _ =>
          match is_handshake buf with
          | None => Fault sent
          | Some hs =>
              let msgtype := if hs then HDR else PKT in
              let ex := if hs then target else source in
              match ex with
              | None => Fault sent
              | Some x =>
                  ReadMessage md pending
                    (sent ++ [mk_forward msgtype buf (ActivePath x)])
              end
          end
      end
  end.

(** The statement of the specification: a frame that opens with the bytes
    0x00 0x01 goes by the handshake routes, any other by the packet
    routes. *)
Definition handshake_sentinel (buf : list Z) : bool :=
  match buf with
  | b0 :: b1 :: _ => bool_decide (b0 = 0 /\ b1 = 1)
  | _ => false
  end.

Definition route_of (md : module) (buf : list Z) : option Exchange :=
  if handshake_sentinel buf
  then index (handshakeRoutes md) (ExtractToken buf)
  else index (packetRoutes md) (ExtractToken buf).


(** A read the local endpoint is to see: an error of the wrapped transport,
    or a frame whose token has no packet route. *)
Definition unrouted (md : module) (r : read_result) : Prop :=
  match r with
  | ReadErr _ _ _ => True
  | ReadFrame buf _ => index (packetRoutes md) (ExtractToken buf) = None
  end.

Definition frame_of (f : list Z * Addr * Exchange) : read_result :=
  let '(buf, src, _) := f in ReadFrame buf src.

Definition forward_of (f : list Z * Addr * Exchange) : forward :=
  let '(buf, _, x) := f in
  mk_forward (if handshake_sentinel buf then HDR else PKT) buf (ActivePath x).

(** A frame the loop writes out: the test of its first bytes stays within
    the frame, its token has a packet route, and [x] is the exchange its
    route leads to. *)
Definition relayed (md : module) (f : list Z * Addr * Exchange) : Prop :=
  let '(buf, _, x) := f in
  is_handshake buf <> None /\
  index (packetRoutes md) (ExtractToken buf) <> None /\
  route_of md buf = Some x.

Lemma is_handshake_sentinel (buf : list Z) :
  (2 <= length buf)%nat -> is_handshake buf = Some (handshake_sentinel buf).
Proof.
  destruct buf as [|b0 [|b1 tl]]; simpl; try lia. intros _.
  unfold is_handshake. simpl. destruct (decide (b0 = 0)) as [->|Hb0].
  - f_equal. apply bool_decide_ext. tauto.
  - f_equal. symmetry. apply bool_decide_eq_false. tauto.
Qed.


(** A read that is not routed ends the call and is handed back as it came
    from the wrapped transport. *)
Lemma ReadMessage_unrouted md r pending sent :
  unrouted md r -> ReadMessage md (r :: pending) sent = Returned r pending sent.
Proof.
  destruct r as [n src err | buf src]; simpl; [done |].
  intros ->. reflexivity.
Qed.





Lemma is_handshake_Some (buf : list Z) hs :
  is_handshake buf = Some hs -> hs = handshake_sentinel buf.
Proof.
  destruct buf as [|b0 [|b1 tl]].
  - done.
  - unfold is_handshake. simpl. destruct (decide (b0 = 0)); [done |].
    by intros [= <-].
  - rewrite is_handshake_sentinel by (simpl; lia). by intros [= <-].
Qed.

Lemma ReadMessage_relayed_step md f pending sent :
  relayed md f ->
  ReadMessage md (frame_of f :: pending) sent =
  ReadMessage md pending (sent ++ [forward_of f]).
Proof.
  destruct f as [[buf src] x]. intros (Hhs & Hsrc & Hroute). simpl.
  destruct (is_handshake buf) as [hs|] eqn:Hbuf; [| done].
  apply is_handshake_Some in Hbuf as ->.
  unfold route_of in Hroute.
  destruct (index (packetRoutes md) (ExtractToken buf)) as [s|] eqn:Hs;
    [| done].
  rewrite Hroute. reflexivity.
Qed.

Lemma ReadMessage_relayed_prefix md fs reads sent :
  Forall (relayed md) fs ->
  ReadMessage md ((frame_of <$> fs) ++ reads) sent =
  ReadMessage md reads (sent ++ (forward_of <$> fs)).
Proof.
  intros Hfs. revert sent. induction Hfs as [|f fs Hf _ IH]; intros sent.
  - by rewrite !fmap_nil, app_nil_l, app_nil_r.
  - rewrite !fmap_cons, <- app_comm_cons.
    rewrite ReadMessage_relayed_step by done.
    by rewrite IH, <- app_assoc.
Qed.

(** Every run of the loop is a run over relayed frames, one write each and
    in the order read, that ends in one of two ways.  The call returns [r]
    exactly when [r] is the first read that is an error or a frame without
    packet route, so it never returns a routed frame, and what is left
    pending is what followed [r].  It is left waiting for the wrapped
    transport exactly when every read it was given has been relayed. *)
Theorem ReadMessage_runs md reads sent :
  (forall r pending sent',
     ReadMessage md reads sent = Returned r pending sent' <->
     exists fs,
       reads = (frame_of <$> fs) ++ r :: pending /\
       sent' = sent ++ (forward_of <$> fs) /\
       Forall (relayed md) fs /\ unrouted md r) /\
  (forall sent',
     ReadMessage md reads sent = Waiting sent' <->
     exists fs,
       reads = frame_of <$> fs /\
       sent' = sent ++ (forward_of <$> fs) /\
       Forall (relayed md) fs).
Proof.
  split.
  - intros r pending sent'. split.
    + revert sent. induction reads as [|r0 reads IH]; intros sent; [done |].
      destruct r0 as [n src err | buf src].
      * simpl. intros [= <- <- <-]. exists []. by rewrite app_nil_r.
      * simpl.
        destruct (index (packetRoutes md) (ExtractToken buf)) as [s|] eqn:Hs.
        -- destruct (is_handshake buf) as [hs|] eqn:Hbuf; [| done].
           destruct (if hs then index (handshakeRoutes md) (ExtractToken buf)
                     else Some s) as [x|] eqn:Hex; [| done].
           intros Hrun. apply IH in Hrun as (fs & -> & -> & Hfs & Hr).
           exists ((buf, src, x) :: fs). repeat split; try done.
           ++ rewrite fmap_cons, <- app_assoc. simpl.
              by rewrite <- (is_handshake_Some buf hs Hbuf).
           ++ constructor; [| done]. repeat split.
              ** by rewrite Hbuf.
              ** by rewrite Hs.
              ** unfold route_of.
                 rewrite <- (is_handshake_Some buf hs Hbuf), Hs. exact Hex.
        -- intros [= <- <- <-]. exists []. by rewrite app_nil_r.
    + intros (fs & -> & -> & Hfs & Hr).
      rewrite ReadMessage_relayed_prefix by done.
      by apply ReadMessage_unrouted.
  - intros sent'. split.
    + revert sent. induction reads as [|r0 reads IH]; intros sent.
      * simpl. intros [= <-]. exists []. by rewrite app_nil_r.
      * destruct r0 as [n src err | buf src]; [done |]. simpl.
        destruct (index (packetRoutes md) (ExtractToken buf)) as [s|] eqn:Hs;
          [| done].
        destruct (is_handshake buf) as [hs|] eqn:Hbuf; [| done].
        destruct (if hs then index (handshakeRoutes md) (ExtractToken buf)
                  else Some s) as [x|] eqn:Hex; [| done].
        intros Hrun. apply IH in Hrun as (fs & -> & -> & Hfs).
        exists ((buf, src, x) :: fs). repeat split; try done.
        -- rewrite fmap_cons, <- app_assoc. simpl.
           by rewrite <- (is_handshake_Some buf hs Hbuf).
        -- constructor; [| done]. repeat split.
           ++ by rewrite Hbuf.
           ++ by rewrite Hs.
           ++ unfold route_of.
              rewrite <- (is_handshake_Some buf hs Hbuf), Hs. exact Hex.
    + intros (fs & -> & -> & Hfs).
      rewrite <- (app_nil_r (frame_of <$> fs)).
      by rewrite ReadMessage_relayed_prefix.
Qed.

(** A routed frame that is empty, or is the single byte 0, stops the loop
    with an index out of range: nothing is written for it and nothing is
    returned. *)
Theorem ReadMessage_short_routed_frame_faults md buf src pending sent :
  index (packetRoutes md) (ExtractToken buf) <> None ->
  buf = [] \/ buf = [0] ->
  ReadMessage md (ReadFrame buf src :: pending) sent = Fault sent.
Proof.
  intros Hroute Hbuf. simpl.
  destruct (index (packetRoutes md) (ExtractToken buf)); [| done].
  by destruct Hbuf as [-> | ->].
Qed.

(** Once [BreakRoute] has been called for the token of a frame, or the token
    has been routed with a [nil] source, the frame is handed to the local
    endpoint. *)
Theorem ReadMessage_unbridged_token md buf src pending sent :
  ReadMessage (BreakRoute (ExtractToken buf) md)
    (ReadFrame buf src :: pending) sent
    = Returned (ReadFrame buf src) pending sent /\
  (forall target,
     ReadMessage (RouteToken (ExtractToken buf) None target md)
       (ReadFrame buf src :: pending) sent
       = Returned (ReadFrame buf src) pending sent).
Proof.
  split; [| intros target]; simpl; unfold index; simpl.
  - by rewrite lookup_delete_eq.
  - by rewrite lookup_insert_eq.
Qed.

End Transport.



Lemma close_step_pass closed (l : list (Token * option Exchange)) md tok :
  packetRoutes (foldl (close_step closed) md l) !! tok =
    (if decide ((tok, closed) ∈ l) then None else packetRoutes md !! tok) /\
  handshakeRoutes (foldl (close_step closed) md l) !! tok =
    (if decide ((tok, closed) ∈ l) then None else handshakeRoutes md !! tok).
Proof.
  revert md. induction l as [|[k x] l IH]; intros md.
  - destruct (decide ((tok, closed) ∈ [])) as [Hin|_]; [| done].
    by apply elem_of_nil in Hin.
  - cbn [foldl]. destruct (IH (close_step closed md (k, x))) as [-> ->].
    assert (Hcons : (tok, closed) ∈ (k, x) :: l <->
                    (tok = k /\ closed = x) \/ (tok, closed) ∈ l).
    { rewrite elem_of_cons. split; intros [H|H]; auto.
      - injection H as -> ->. auto.
      - destruct H as [-> ->]. auto. }
    unfold close_step. cbn [fst snd].
    destruct (decide (closed = x)) as [<-|Hx];
      destruct (decide ((tok, closed) ∈ l)) as [Hin|Hin].
    + rewrite !decide_True by (apply Hcons; auto). done.
    + destruct (decide (tok = k)) as [->|Hk].
      * rewrite !decide_True by (apply Hcons; auto).
        unfold BreakRoute. cbn [packetRoutes handshakeRoutes].
        by rewrite !lookup_delete_eq.
      * rewrite !decide_False by (rewrite Hcons; tauto).
        unfold BreakRoute. cbn [packetRoutes handshakeRoutes].
        by rewrite !lookup_delete_ne.
    + rewrite !decide_True by (apply Hcons; auto). done.
    + rewrite !decide_False by (rewrite Hcons; tauto). done.
Qed.

(** C6: once the bridge has handled the closing of an exchange, no token of
    either table maps to it, and a token whose packet route or handshake
    route named it has lost both of its routes. *)
Theorem on_exchange_closed_clears_routes closed md tok :
  let md' := on_exchange_closed closed md in
  packetRoutes md' !! tok <> Some closed /\
  handshakeRoutes md' !! tok <> Some closed /\
  (packetRoutes md !! tok = Some closed \/
   handshakeRoutes md !! tok = Some closed ->
   packetRoutes md' !! tok = None /\ handshakeRoutes md' !! tok = None).
Proof.
  unfold on_exchange_closed. simpl.
  set (md1 := foldl (close_step closed) md (map_to_list (packetRoutes md))).
  destruct (close_step_pass closed (map_to_list (packetRoutes md)) md tok)
    as [Hp1 Hh1]. fold md1 in Hp1, Hh1.
  destruct (close_step_pass closed (map_to_list (handshakeRoutes md1)) md1 tok)
    as [Hp2 Hh2].
  rewrite Hp2, Hh2, Hp1. clear Hp2 Hh2.
  destruct (decide ((tok, closed) ∈ map_to_list (handshakeRoutes md1)))
    as [Hin2|Hin2];
  destruct (decide ((tok, closed) ∈ map_to_list (packetRoutes md)))
    as [Hin1|Hin1];
  rewrite ?elem_of_map_to_list in Hin1, Hin2.
  all: split; [done | split; [done |]]; intros Hor; try done.
  exfalso. rewrite Hh1 in Hin2. destruct Hor; done.
Qed.

(** A route that did not name the closed exchange in either table stays. *)
Lemma on_exchange_closed_keeps_others closed md tok :
  packetRoutes md !! tok <> Some closed ->
  handshakeRoutes md !! tok <> Some closed ->
  packetRoutes (on_exchange_closed closed md) !! tok = packetRoutes md !! tok /\
  handshakeRoutes (on_exchange_closed closed md) !! tok = handshakeRoutes md !! tok.
Proof.
  intros Hp Hh. unfold on_exchange_closed. simpl.
  set (md1 := foldl (close_step closed) md (map_to_list (packetRoutes md))).
  destruct (close_step_pass closed (map_to_list (packetRoutes md)) md tok)
    as [Hp1 Hh1]. fold md1 in Hp1, Hh1.
  destruct (close_step_pass closed (map_to_list (handshakeRoutes md1)) md1 tok)
    as [Hp2 Hh2].
  rewrite decide_False in Hp1, Hh1 by (by rewrite elem_of_map_to_list).
  rewrite decide_False in Hp2, Hh2
    by (rewrite elem_of_map_to_list; congruence).
  split; congruence.
Qed.

Lemma ReadMessage_short_routed_frame_faults_witness :
  let md := RouteToken [] (Some 1%nat) None newBridge in
  ReadMessage spec_ExtractToken (fun _ : Exchange => "10.0.0.1:4000"%string)
    md [ReadFrame [0] "10.0.0.2:4000"%string] []
  = Fault [].
Proof.
  cbv zeta.
  apply (ReadMessage_short_routed_frame_faults spec_ExtractToken
           (fun _ : Exchange => "10.0.0.1:4000"%string)
           (RouteToken [] (Some 1%nat) None newBridge)
           [0] "10.0.0.2:4000"%string [] []).
  - vm_compute. discriminate.
  - right. reflexivity.
Defined.

(** [lookupToken] after [RouteToken]: the source is the one just given; the
    target is the one just given unless that was [nil], in which case a
    handshake route the token had before is still there.  Other tokens are
    not affected. *)
Theorem RouteToken_lookupToken token source target md :
  lookupToken (RouteToken token source target md) token =
    (source,
     match target with
     | Some _ => target
     | None => index (handshakeRoutes md) token
     end) /\
  (forall token', token' <> token ->
     lookupToken (RouteToken token source target md) token' =
     lookupToken md token').
Proof.
  unfold lookupToken, RouteToken, index. simpl. split.
  - rewrite lookup_insert_eq. simpl. f_equal.
    destruct target; [by rewrite lookup_insert_eq | done].
  - intros token' Hne. rewrite lookup_insert_ne by done. f_equal.
    destruct target; [by rewrite lookup_insert_ne | done].
Qed.

(** [BreakRoute] removes both routes of its token, whatever was routed
    before, leaves other tokens alone, and is idempotent. *)
Theorem BreakRoute_lookupToken token md :
  lookupToken (BreakRoute token md) token = (None, None) /\
  (forall token', token' <> token ->
     lookupToken (BreakRoute token md) token' = lookupToken md token') /\
  BreakRoute token (BreakRoute token md) = BreakRoute token md.
Proof.
  unfold lookupToken, BreakRoute, index. simpl. repeat split.
  - by rewrite !lookup_delete_eq.
  - intros token' Hne. by rewrite !lookup_delete_ne.
  - f_equal; apply map_eq; intros k;
      destruct (decide (k = token)) as [->|Hk];
      by rewrite ?lookup_delete_eq, ?lookup_delete_ne.
Qed.

Lemma on_exchange_closed_lookup closed md tok :
  packetRoutes (on_exchange_closed closed md) !! tok =
    (if decide (packetRoutes md !! tok = Some closed \/
                handshakeRoutes md !! tok = Some closed)
     then None else packetRoutes md !! tok) /\
  handshakeRoutes (on_exchange_closed closed md) !! tok =
    (if decide (packetRoutes md !! tok = Some closed \/
                handshakeRoutes md !! tok = Some closed)
     then None else handshakeRoutes md !! tok).
Proof.
  unfold on_exchange_closed. simpl.
  set (md1 := foldl (close_step closed) md (map_to_list (packetRoutes md))).
  destruct (close_step_pass closed (map_to_list (packetRoutes md)) md tok)
    as [Hp1 Hh1]. fold md1 in Hp1, Hh1.
  destruct (close_step_pass closed (map_to_list (handshakeRoutes md1)) md1 tok)
    as [-> ->].
  rewrite Hp1.
  destruct (decide ((tok, closed) ∈ map_to_list (handshakeRoutes md1)))
    as [Hin2|Hin2];
  destruct (decide ((tok, closed) ∈ map_to_list (packetRoutes md)))
    as [Hin1|Hin1];
  rewrite ?elem_of_map_to_list in Hin1, Hin2.
  - by rewrite !decide_True by auto.
  - rewrite Hh1 in Hin2. by rewrite !decide_True by auto.
  - by rewrite !decide_True by auto.
  - rewrite Hh1 in Hin2 |- *. by rewrite !decide_False by tauto.
Qed.

(** Handling the closing of the same exchange a second time changes
    nothing, and so does handling the closing of an exchange that no route
    names. *)
Theorem on_exchange_closed_idempotent closed md :
  on_exchange_closed closed (on_exchange_closed closed md)
    = on_exchange_closed closed md /\
  ((forall tok, packetRoutes md !! tok <> Some closed /\
                handshakeRoutes md !! tok <> Some closed) ->
   on_exchange_closed closed md = md).
Proof.
  assert (Hid : forall m : module,
            (forall tok, packetRoutes m !! tok <> Some closed /\
                         handshakeRoutes m !! tok <> Some closed) ->
            on_exchange_closed closed m = m).
  { intros m Hm.
    destruct (on_exchange_closed closed m) as [pr hr] eqn:Hmd.
    destruct m as [pr0 hr0]. f_equal; apply map_eq; intros tok.
    - destruct (on_exchange_closed_lookup closed (mk_module pr0 hr0) tok)
        as [Hp _]. rewrite Hmd in Hp. simpl in Hp. rewrite Hp.
      destruct (Hm tok). simpl in *. by rewrite decide_False by tauto.
    - destruct (on_exchange_closed_lookup closed (mk_module pr0 hr0) tok)
        as [_ Hh]. rewrite Hmd in Hh. simpl in Hh. rewrite Hh.
      destruct (Hm tok). simpl in *. by rewrite decide_False by tauto. }
  split; [| exact (Hid md)].
  apply Hid. intros tok.
  destruct (on_exchange_closed_lookup closed md tok) as [-> ->].
  destruct (decide (packetRoutes md !! tok = Some closed \/
                    handshakeRoutes md !! tok = Some closed)); [done | tauto].
Qed.

Lemma on_exchange_closed_keeps_others_witness :
  let md := RouteToken [1] (Some 1%nat) (Some 2%nat)
              (RouteToken [2] (Some 3%nat) (Some 4%nat) newBridge) in
  lookupToken (on_exchange_closed (Some 2%nat) md) [1] = (None, None) /\
  lookupToken (on_exchange_closed (Some 2%nat) md) [2]
    = (Some 3%nat, Some 4%nat).
Proof.
  cbv zeta. split; [vm_compute; reflexivity |].
  destruct (on_exchange_closed_keeps_others (Some 2%nat)
              (RouteToken [1] (Some 1%nat) (Some 2%nat)
                 (RouteToken [2] (Some 3%nat) (Some 4%nat) newBridge)) [2])
    as [Hp Hh].
  - vm_compute. discriminate.
  - vm_compute. discriminate.
  - unfold lookupToken, index. rewrite Hp, Hh. vm_compute. reflexivity.
Defined.

End Bridge.

(** ** SHA-256 (FIPS 180-4), the digest of Go's [crypto/sha256] *)

Module SHA256.

Definition word (z : Z) : Z := z mod 2 ^ 32.
Definition add32 (a b : Z) : Z := word (a + b).
Definition rotr (n x : Z) : Z := Z.lor (Z.shiftr x n) (word (Z.shiftl x (32 - n))).
Definition not32 (x : Z) : Z := Z.lxor x 0xffffffff.

Definition Ch (x y z : Z) : Z := Z.lxor (Z.land x y) (Z.land (not32 x) z).
Definition Maj (x y z : Z) : Z :=
  Z.lxor (Z.lxor (Z.land x y) (Z.land x z)) (Z.land y z).
Definition Sigma0 (x : Z) : Z := Z.lxor (Z.lxor (rotr 2 x) (rotr 13 x)) (rotr 22 x).
Definition Sigma1 (x : Z) : Z := Z.lxor (Z.lxor (rotr 6 x) (rotr 11 x)) (rotr 25 x).
Definition sigma0 (x : Z) : Z := Z.lxor (Z.lxor (rotr 7 x) (rotr 18 x)) (Z.shiftr x 3).
Definition sigma1 (x : Z) : Z := Z.lxor (Z.lxor (rotr 17 x) (rotr 19 x)) (Z.shiftr x 10).

(** The largest [r] below [2 ^ bits] with [r ^ k <= n], bit by bit. *)
Fixpoint iroot (k n : Z) (bits : nat) (r : Z) : Z :=
  match bits with
  | O => r
  | S b =>
      let c := r + 2 ^ Z.of_nat b in
      if c ^ k <=? n then iroot k n b c else iroot k n b r
  end.

(** The first 32 bits of the fractional part of the [k]-th root of [p]. *)
Definition frac_root (k p : Z) : Z :=
  word (iroot k (p * 2 ^ (32 * k)) 48 0).

Definition primes : list Z :=
  [2; 3; 5; 7; 11; 13; 17; 19; 23; 29; 31; 37; 41; 43; 47; 53; 59; 61; 67;
   71; 73; 79; 83; 89; 97; 101; 103; 107; 109; 113; 127; 131; 137; 139; 149;
   151; 157; 163; 167; 173; 179; 181; 191; 193; 197; 199; 211; 223; 227;
   229; 233; 239; 241; 251; 257; 263; 269; 271; 277; 281; 283; 293; 307;
   311].

(** The round constants come from the cube roots of the first 64 primes,
    the initial hash value from the square roots of the first 8. *)
Definition K : list Z := Eval vm_compute in frac_root 3 <$> primes.

Definition H0 : list Z := Eval vm_compute in frac_root 2 <$> take 8 primes.

(** Big-endian bytes of a number, [n] of them. *)
Fixpoint be_bytes (n : nat) (z : Z) : list Z :=
  match n with
  | O => []
  | S n' => be_bytes n' (z / 256) ++ [z mod 256]
  end.

Definition be_word (bs : list Z) : Z :=
  foldl (fun acc b => acc * 256 + b) 0 bs.

(** The message, the bit 1, zeros up to 56 modulo 64, the bit length. *)
Definition pad (msg : list Z) : list Z :=
  let len := Z.of_nat (length msg) in
  msg ++ [0x80] ++ replicate (Z.to_nat ((55 - len) mod 64)) 0
      ++ be_bytes 8 (8 * len).

Fixpoint chunks (n : nat) (size : nat) (bs : list Z) : list (list Z) :=
  match n with
  | O => []
  | S n' => take size bs :: chunks n' size (drop size bs)
  end.

Definition at_ (w : list Z) (i : nat) : Z := default 0 (w !! i).

Fixpoint schedule (n : nat) (w : list Z) : list Z :=
  match n with
  | O => w
  | S n' =>
      let i := length w in
      schedule n'
        (w ++ [add32 (add32 (sigma1 (at_ w (i - 2))) (at_ w (i - 7)))
                     (add32 (sigma0 (at_ w (i - 15))) (at_ w (i - 16)))])
  end.

Definition round (s : list Z) (kw : Z * Z) : list Z :=
  match s with
  | [a; b; c; d; e; f; g; h] =>
      let t1 := add32 (add32 (add32 h (Sigma1 e)) (add32 (Ch e f g) kw.1)) kw.2 in
      let t2 := add32 (Sigma0 a) (Maj a b c) in
      [add32 t1 t2; a; b; c; add32 d t1; e; f; g]
  | _ => s
  end.

Definition compress (h : list Z) (block : list Z) : list Z :=
  let w := schedule 48 (be_word <$> chunks 16 4 block) in
  zip_with add32 h (foldl round h (zip K w)).

Definition sum256 (msg : list Z) : list Z :=
  let padded := pad msg in
  let blocks := chunks (length padded / 64) 64 padded in
  foldl compress H0 blocks ≫= be_bytes 4.

Example sum256_empty :
  sum256 [] =
  [227; 176; 196; 66; 152; 252; 28; 20; 154; 251; 244; 200; 153; 111; 185; 36;
   39; 174; 65; 228; 100; 155; 147; 76; 164; 149; 153; 27; 120; 82; 184; 85].
Proof. vm_compute. reflexivity. Qed.

Example sum256_abc :
  sum256 [97; 98; 99] =
  [186; 120; 22; 191; 143; 1; 207; 234; 65; 65; 64; 222; 93; 174; 34; 35;
   176; 3; 97; 163; 150; 23; 122; 156; 180; 16; 255; 97; 242; 0; 21; 173].
Proof. vm_compute. reflexivity. Qed.

Example sum256_56_bytes :
  sum256 [97; 98; 99; 100; 98; 99; 100; 101; 99; 100; 101; 102; 100; 101;
          102; 103; 101; 102; 103; 104; 102; 103; 104; 105; 103; 104; 105;
          106; 104; 105; 106; 107; 105; 106; 107; 108; 106; 107; 108; 109;
          107; 108; 109; 110; 108; 109; 110; 111; 109; 110; 111; 112; 110;
          111; 112; 113] =
  be_bytes 32
    0x248d6a61d20638b8e5c026930c3e6039a33ce45964ff2167f6ecedd419db06c1.
Proof. vm_compute. reflexivity. Qed.

Example sum256_two_blocks :
  sum256 (replicate 100 97) =
  [40; 22; 89; 120; 136; 228; 160; 211; 163; 107; 130; 184; 51; 22; 171; 50;
   104; 14; 184; 240; 15; 140; 211; 185; 4; 214; 129; 36; 109; 40; 90; 14].
Proof. vm_compute. reflexivity. Qed.

Example K_ends : K !! 0%nat = Some 0x428a2f98 /\ K !! 63%nat = Some 0xc67178f2.
Proof. split; reflexivity. Qed.

End SHA256.

(** ** Identities (package e3x, addr.go) *)

Module E3x.

(** [hex.EncodeToString]: two lower-case digits per byte. *)
Definition hex_digit (n : Z) : ascii :=
  match n with
  | 0 => "0" | 1 => "1" | 2 => "2" | 3 => "3" | 4 => "4" | 5 => "5"
  | 6 => "6" | 7 => "7" | 8 => "8" | 9 => "9" | 10 => "a" | 11 => "b"
  | 12 => "c" | 13 => "d" | 14 => "e" | _ => "f"
  end%char.

Definition hex_byte (b : Z) : string :=
  String (hex_digit (b / 16)) (String (hex_digit (b mod 16)) EmptyString).

Definition hex (bs : list Z) : string :=
  foldr (fun b acc => hex_byte b +:+ acc) EmptyString bs.

(** [cipherset.Keys] maps a CSID (one byte) to a key, of which the identity
    uses the public bytes; [cipherset.Parts] maps a CSID to the text of an
    intermediate hash; [hashname.H] is a string. *)
Abbreviation Keys := (gmap Z (list Z)).
Abbreviation Parts := (gmap Z string).
Abbreviation H := string.

Inductive error : Set :=
  | ErrNoKeys
  | ErrNoAddress
  | ErrHashname (msg : string).

(** Modelled from the spec: [hashname.PartsFromKeys], missing from the
    sources.  It "returns intermediates": for every CSID of the key set the
    hex text of the intermediate, which "for a key is
    SHA256(public_key_bytes)". *)
Definition PartsFromKeys (keys : Keys) : Parts :=
  (fun key => hex (SHA256.sum256 key)) <$> keys.

(** [hex.DecodeString]; [None] for a text that is no hex. *)
Definition unhex_digit (c : ascii) : option Z :=
  let n := Z.of_N (N_of_ascii c) in
  if (48 <=? n) && (n <=? 57) then Some (n - 48)
  else if (97 <=? n) && (n <=? 102) then Some (n - 87)
  else if (65 <=? n) && (n <=? 70) then Some (n - 55)
  else None.

Fixpoint unhex (s : string) : option (list Z) :=
  match s with
  | EmptyString => Some []
  | String c1 (String c2 rest) =>
      match unhex_digit c1, unhex_digit c2, unhex rest with
      | Some hi, Some lo, Some tl => Some (hi * 16 + lo :: tl)
      | _, _, _ => None
      end
  | String _ EmptyString => None
  end.

(** Base 32 text, lower case and without padding. *)
Definition base32_alphabet : list ascii :=
  list_ascii_of_string "abcdefghijklmnopqrstuvwxyz234567".

Definition bits_of_byte (b : Z) : list bool :=
  Z.testbit b <$> [7; 6; 5; 4; 3; 2; 1; 0].

Definition quintet (bits : list bool) : Z :=
  foldl (fun acc (b : bool) => 2 * acc + (if b then 1 else 0)) 0
        (take 5 (bits ++ replicate 4 false)).

Fixpoint quintets (n : nat) (bits : list bool) : list Z :=
  match n, bits with
  | S n', _ :: _ => quintet bits :: quintets n' (drop 5 bits)
  | _, _ => []
  end.

Definition base32 (bs : list Z) : string :=
  let bits := bs ≫= bits_of_byte in
  string_of_list_ascii
    ((fun q => default "a"%char (base32_alphabet !! Z.to_nat q))
       <$> quintets (length bits) bits).

(** One step of the derivation below, for one CSID; [None] once a part has
    failed to decode. *)
Definition roll (parts : Parts) (seed : option (list Z)) (csid : Z)
    : option (list Z) :=
  match seed, parts !! csid with
  | None, _ => None
  | Some seed, None => Some seed
  | Some seed, Some part =>
      match unhex part with
      | None => None
      | Some intermediate =>
          Some (SHA256.sum256 (SHA256.sum256 (seed ++ [csid]) ++ intermediate))
      end
  end.

(** Modelled from the spec: [hashname.FromIntermediates], missing from the
    sources, as section 3 words the derivation: "seed = zero; for each csid
    in ascending byte order, seed = SHA256(seed ‖ [csid]) then
    seed = SHA256(seed ‖ intermediate)", the zero seed being the empty byte
    string, the parts holding the intermediates in hex and the hashname
    being the base32 text of the last seed.  It fails for an empty map and
    for a part that is no hex text.  The theorems on [NewAddr] hold for any
    derivation; the examples run [NewAddr] with this one. *)
Definition spec_FromIntermediates (parts : Parts) : error + H :=
  if decide (parts = ∅) then inl (ErrHashname "no intermediates")
  else
    match foldl (roll parts) (Some []) (seqZ 0 256) with
    | None => inl (ErrHashname "invalid intermediate")
    | Some seed => inr (base32 seed)
    end.

Section NewAddr.

(** [hashname.FromIntermediates] and [transports.ResolvedAddr] belong to
    packages outside the sources at hand. *)
Context {ResolvedAddr : Type}.
Variable FromIntermediates : Parts -> error + H.

Record Addr : Type := mk_Addr {
  hashname : H;
  keys : Keys;
  parts : Parts;
  addrs : list ResolvedAddr
}.

(** The loop [for csid, part := range m { parts[csid] = part }]. *)
Definition assign_parts (parts : Parts) (m : Parts) : Parts :=
  foldl (fun acc entry => <[entry.1 := entry.2]> acc) parts (map_to_list m).

(** What [addr.parts] holds when the hashname is derived: the caller's map,
    or a fresh one for [nil], after the loop over [PartsFromKeys]. *)
Definition resulting_parts (keys : Keys) (parts : option Parts) : Parts :=
  assign_parts (match parts with Some ps => ps | None => ∅ end)
               (PartsFromKeys keys).

(** [NewAddr].  A [nil] key map has length 0 like an empty one. *)
Definition NewAddr (keys : Keys) (parts : option Parts)
    (addrs : list ResolvedAddr) : error + Addr :=
  if decide (size keys = 0%nat) then inl ErrNoKeys
  else if decide (length addrs = 0%nat) then inl ErrNoAddress
  else
    let parts1 := resulting_parts keys parts in
    match FromIntermediates parts1 with
    | inl err => inl err
    | inr h => inr (mk_Addr h keys parts1 addrs)
    end.

(** The same call with the maps where Go has them, behind references:
    [parts] is a location of the store or [nil], the identity holds the
    location it writes to, and the loop writes into the store.  For [nil] a
    fresh location is taken. *)
Record AddrRef : Type := mk_AddrRef {
  ref_hashname : H;
  ref_keys : Keys;
  ref_parts : nat;
  ref_addrs : list ResolvedAddr
}.

Definition NewAddr_store (store : gmap nat Parts) (keys : Keys)
    (parts : option nat) (addrs : list ResolvedAddr)
    : (error + AddrRef) * gmap nat Parts :=
  if decide (size keys = 0%nat) then (inl ErrNoKeys, store)
  else if decide (length addrs = 0%nat) then (inl ErrNoAddress, store)
  else
    let '(l, store0) :=
      match parts with
      | Some l => (l, store)
      | None => (fresh (dom store), <[fresh (dom store) := ∅]> store)
      end in
    let written :=
      assign_parts (default ∅ (store0 !! l)) (PartsFromKeys keys) in
    let store1 := <[l := written]> store0 in
    match FromIntermediates written with
    | inl err => (inl err, store1)
    | inr h => (inr (mk_AddrRef h keys l addrs), store1)
    end.

(** The identity read out of the store. *)
Definition deref (store : gmap nat Parts) (r : error + AddrRef)
    : error + Addr :=
  match r with
  | inl err => inl err
  | inr a =>
      inr (mk_Addr (ref_hashname a) (ref_keys a)
             (default ∅ (store !! ref_parts a)) (ref_addrs a))
  end.

Lemma assign_entries_other (l : list (Z * string)) (acc : Parts) csid :
  csid ∉ l.*1 ->
  foldl (fun acc entry => <[entry.1 := entry.2]> acc) acc l !! csid = acc !! csid.
Proof.
  revert acc. induction l as [|[k v] l IH]; intros acc Hk; [done |].
  rewrite fmap_cons, not_elem_of_cons in Hk. destruct Hk as [Hne Hk].
  cbn [foldl]. rewrite IH by done. simpl in *. by rewrite lookup_insert_ne.
Qed.

Lemma assign_entries_in (l : list (Z * string)) (acc : Parts) csid part :
  NoDup l.*1 -> (csid, part) ∈ l ->
  foldl (fun acc entry => <[entry.1 := entry.2]> acc) acc l !! csid = Some part.
Proof.
  revert acc. induction l as [|[k v] l IH]; intros acc Hnd Hin.
  - by apply elem_of_nil in Hin.
  - rewrite fmap_cons in Hnd. apply NoDup_cons in Hnd as [Hk Hnd].
    cbn [foldl]. apply elem_of_cons in Hin as [[= -> ->]|Hin].
    + rewrite assign_entries_other by done. simpl. apply lookup_insert_eq.
    + by apply IH.
Qed.

(** After the loop every entry of [m] has overwritten what [parts] held for
    its CSID, and the other entries of [parts] are as they were. *)
Lemma assign_parts_lookup (parts m : Parts) csid :
  assign_parts parts m !! csid =
  match m !! csid with
  | Some part => Some part
  | None => parts !! csid
  end.
Proof.
  unfold assign_parts. destruct (m !! csid) as [part|] eqn:Hm.
  - apply assign_entries_in; [apply NoDup_fst_map_to_list |].
    by apply elem_of_map_to_list.
  - apply assign_entries_other. intros Hin.
    apply list_elem_of_fmap in Hin as [[k v] [-> Hin]].
    apply elem_of_map_to_list in Hin. simpl in Hm. congruence.
Qed.

Lemma PartsFromKeys_lookup (keys : Keys) csid :
  PartsFromKeys keys !! csid =
  (fun key => hex (SHA256.sum256 key)) <$> keys !! csid.
Proof. apply lookup_fmap. Qed.

Lemma NewAddr_ok_inv ks ps ads a :
  NewAddr ks ps ads = inr a ->
  ks <> ∅ /\ ads <> [] /\
  FromIntermediates (resulting_parts ks ps) = inr (hashname a) /\
  a = mk_Addr (hashname a) ks (resulting_parts ks ps) ads.
Proof.
  unfold NewAddr. destruct (decide (size ks = 0%nat)) as [|Hk]; [done |].
  destruct (decide (length ads = 0%nat)) as [|Ha]; [done |].
  destruct (FromIntermediates (resulting_parts ks ps)) as [err|h] eqn:Hfi;
    [done |].
  intros [= <-]. simpl. repeat split; try done.
  - intros ->. by rewrite map_size_empty in Hk.
  - intros ->. done.
Qed.

(** C2: in an identity that [NewAddr] returned, the part of every CSID of the
    key map is the hex text of the SHA-256 of that key, whatever the caller
    had supplied for it, and the hashname is the one derived from the parts
    the identity holds. *)
Theorem NewAddr_parts_and_hashname ks ps ads a :
  NewAddr ks ps ads = inr a ->
  keys a = ks /\
  (forall csid key, ks !! csid = Some key ->
     parts a !! csid = Some (hex (SHA256.sum256 key))) /\
  FromIntermediates (parts a) = inr (hashname a).
Proof.
  intros Hok. apply NewAddr_ok_inv in Hok as (_ & _ & Hfi & ->). simpl.
  repeat split; [| exact Hfi].
  intros csid key Hkey. unfold resulting_parts.
  rewrite assign_parts_lookup, PartsFromKeys_lookup, Hkey. reflexivity.
Qed.

(** C8 (amended): [NewAddr] fails only for an empty key set, for an empty
    list of transport addresses, or when no hashname derives from the
    resulting parts; with keys, addresses and a hashname that derives it
    succeeds. *)
Theorem NewAddr_error_cases ks ps ads :
  (forall err,
     NewAddr ks ps ads = inl err <->
     (ks = ∅ /\ err = ErrNoKeys) \/
     (ks <> ∅ /\ ads = [] /\ err = ErrNoAddress) \/
     (ks <> ∅ /\ ads <> [] /\
      FromIntermediates (resulting_parts ks ps) = inl err)) /\
  (forall h,
     ks <> ∅ -> ads <> [] ->
     FromIntermediates (resulting_parts ks ps) = inr h ->
     NewAddr ks ps ads = inr (mk_Addr h ks (resulting_parts ks ps) ads)).
Proof.
  unfold NewAddr. split.
  - intros err. destruct (decide (size ks = 0%nat)) as [Hk|Hk].
    + apply map_size_empty_inv in Hk. split.
      * intros [= <-]. auto.
      * intros [[_ ->]|[[? _]|[? _]]]; done.
    + assert (ks <> ∅) as Hne by (intros ->; by rewrite map_size_empty in Hk).
      destruct (decide (length ads = 0%nat)) as [Ha|Ha].
      * apply length_zero_iff_nil in Ha. split.
        -- intros [= <-]. auto.
        -- intros [[? _]|[(_ & _ & ->)|(_ & ? & _)]]; done.
      * assert (ads <> []) as Hna by (intros ->; done).
        destruct (FromIntermediates (resulting_parts ks ps)) as [e|h] eqn:Hfi.
        -- split.
           ++ intros [= <-]. auto.
           ++ intros [[? _]|[(_ & ? & _)|(_ & _ & [= ->])]]; done.
        -- split; [done |].
           intros [[? _]|[(_ & ? & _)|(_ & _ & ?)]]; done.
  - intros h Hk Ha Hfi.
    rewrite decide_False
      by (intros Hs; by apply map_size_empty_inv in Hs).
    rewrite decide_False
      by (intros Hl; by apply length_zero_iff_nil in Hl).
    by rewrite Hfi.
Qed.

(** An identity holds the addresses it was given, keeps the parts the
    caller supplied for CSIDs that have no key, and so has a part for exactly
    the CSIDs of the keys and of the supplied parts. *)
Theorem NewAddr_keeps_supplied_parts ks ps ads a :
  NewAddr ks ps ads = inr a ->
  addrs a = ads /\
  (forall csid, ks !! csid = None ->
     parts a !! csid = (default ∅ ps) !! csid) /\
  dom (parts a) = dom ks ∪ dom (default ∅ ps).
Proof.
  intros Hok. apply NewAddr_ok_inv in Hok as (_ & _ & _ & ->). simpl.
  assert (Hlook : forall csid,
            resulting_parts ks ps !! csid =
            match ks !! csid with
            | Some key => Some (hex (SHA256.sum256 key))
            | None => default ∅ ps !! csid
            end).
  { intros csid. unfold resulting_parts.
    rewrite assign_parts_lookup, PartsFromKeys_lookup.
    destruct (ks !! csid); simpl; [done |]. by destruct ps. }
  repeat split.
  - intros csid Hnone. by rewrite Hlook, Hnone.
  - apply set_eq. intros csid.
    rewrite elem_of_union, !elem_of_dom, Hlook.
    destruct (ks !! csid) as [key|] eqn:Hk.
    + split; [intros _; left |]; eauto.
    + split; [by right |]. intros [[? [=]]|?]; done.
Qed.

(** The call on references does what [NewAddr] does, and it writes through
    the caller's map: past the two guards the map behind [parts] holds the
    resulting parts when the call ends, also when the hashname then fails to
    derive, every other map of the store is as it was, and a returned
    identity refers to the caller's map itself. *)
Theorem NewAddr_store_writes_through store ks l ps ads :
  store !! l = Some ps ->
  let '(r, store') := NewAddr_store store ks (Some l) ads in
  deref store' r = NewAddr ks (Some ps) ads /\
  (forall l', l' <> l -> store' !! l' = store !! l') /\
  (ks = ∅ \/ ads = [] -> store' = store) /\
  (ks <> ∅ -> ads <> [] ->
     store' !! l = Some (resulting_parts ks (Some ps)) /\
     forall a, r = inr a -> ref_parts a = l).
Proof.
  intros Hl. unfold NewAddr_store, NewAddr.
  destruct (decide (size ks = 0%nat)) as [Hk|Hk].
  { apply map_size_empty_inv in Hk. repeat split; try done. }
  assert (ks <> ∅) as Hne by (intros ->; by rewrite map_size_empty in Hk).
  destruct (decide (length ads = 0%nat)) as [Ha|Ha].
  { apply length_zero_iff_nil in Ha. repeat split; try done. }
  assert (ads <> []) as Hna by (intros ->; done).
  rewrite Hl. simpl. fold (resulting_parts ks (Some ps)).
  destruct (FromIntermediates (resulting_parts ks (Some ps))) as [e|h];
    simpl; rewrite ?lookup_insert_eq; simpl.
  all: repeat split; try done.
  all: try (intros l' Hl'; by rewrite lookup_insert_ne).
  all: try (intros [?|?]; done).
  all: by intros a [= <-].
Qed.

End NewAddr.

Example hex_unhex_abc :
  unhex (hex (SHA256.sum256 [97; 98; 99])) = Some (SHA256.sum256 [97; 98; 99]).
Proof. vm_compute. reflexivity. Qed.

Example base32_foobar :
  base32 [102; 111; 111; 98; 97; 114] = "mzxw6ytboi"%string.
Proof. vm_compute. reflexivity. Qed.

Lemma NewAddr_parts_and_hashname_witness :
  exists a : @Addr string,
    NewAddr spec_FromIntermediates {[58 := [1; 2; 3]]} (Some {[58 := "00"%string]})
            ["udp4 127.0.0.1:4242"%string] = inr a /\
    parts a !! 58 = Some
      "039058c6f2c0cb492c533b0a4d14ef77cc0f78abccced5287d84a1a2011cfb81"%string /\
    spec_FromIntermediates (parts a) = inr (hashname a).
Proof.
  destruct (NewAddr spec_FromIntermediates {[58 := [1; 2; 3]]}
              (Some {[58 := "00"%string]}) ["udp4 127.0.0.1:4242"%string])
    as [e|a] eqn:Hok.
  - vm_compute in Hok. discriminate Hok.
  - exists a. split; [reflexivity |].
    destruct (NewAddr_parts_and_hashname _ _ _ _ _ Hok) as (_ & Hparts & Hh).
    split; [| exact Hh].
    rewrite (Hparts 58 [1; 2; 3]) by (vm_compute; reflexivity).
    vm_compute. reflexivity.
Defined.

Lemma NewAddr_keeps_supplied_parts_witness :
  exists a : @Addr string,
    NewAddr spec_FromIntermediates {[58 := [1; 2; 3]]}
            (Some {[26 := "ab"%string]}) ["udp4 127.0.0.1:4242"%string]
      = inr a /\
    parts a !! 26 = Some "ab"%string /\
    dom (parts a) = {[58; 26]}.
Proof.
  destruct (NewAddr spec_FromIntermediates {[58 := [1; 2; 3]]}
              (Some {[26 := "ab"%string]}) ["udp4 127.0.0.1:4242"%string])
    as [e|a] eqn:Hok.
  - vm_compute in Hok. discriminate Hok.
  - exists a. split; [reflexivity |].
    destruct (NewAddr_keeps_supplied_parts _ _ _ _ _ Hok) as (_ & Hkept & Hdom).
    split.
    + rewrite Hkept by (vm_compute; reflexivity). vm_compute. reflexivity.
    + rewrite Hdom. simpl. by rewrite !dom_singleton_L.
Defined.

Lemma NewAddr_store_writes_through_witness :
  let store : gmap nat Parts := {[7%nat := {[58 := "zz"%string]}]} in
  let out :=
    @NewAddr_store string spec_FromIntermediates store
      {[26 := [1; 2; 3]]} (Some 7%nat) ["udp4 127.0.0.1:4242"%string] in
  out.1 = inl (ErrHashname "invalid intermediate") /\
  out.2 !! 7%nat = Some (resulting_parts {[26 := [1; 2; 3]]}
                           (Some {[58 := "zz"%string]})).
Proof.
  cbv zeta.
  assert (Hst : ({[7%nat := {[58 := "zz"%string]}]} : gmap nat Parts) !! 7%nat
                = Some ({[58 := "zz"%string]} : Parts))
    by apply lookup_singleton_eq.
  pose proof (@NewAddr_store_writes_through string spec_FromIntermediates
                _ {[26 := [1; 2; 3]]} 7%nat _
                ["udp4 127.0.0.1:4242"%string] Hst) as Hw.
  destruct (NewAddr_store spec_FromIntermediates _ _ _ _) as [r store']
    eqn:Hrun.
  destruct Hw as (_ & _ & _ & Hwritten).
  destruct Hwritten as [Hl _].
  - intros Hks. apply (f_equal (fun m : Keys => m !! 26)) in Hks.
    vm_compute in Hks. discriminate Hks.
  - discriminate.
  - split; [| exact Hl].
    apply (f_equal fst) in Hrun. simpl in Hrun. rewrite <- Hrun.
    vm_compute. reflexivity.
Defined.

(** C8 as stated fails: one well-formed key, and yet an error, because the
    list of transport addresses is empty. *)
Lemma NewAddr_without_addresses_fails :
  let ks : Keys := {[58 := [1; 2; 3]]} in
  ks <> ∅ /\
  @NewAddr string spec_FromIntermediates ks None [] = inl ErrNoAddress.
Proof.
  split.
  - intros Hks. apply (f_equal (fun m : Keys => m !! 58)) in Hks.
    vm_compute in Hks. discriminate Hks.
  - vm_compute. reflexivity.
Qed.

End E3x.

(** ** The UDP transport (package udp, udp_transport.go) *)

Module UDP.

Inductive error : Set :=
  | ErrInvalidAddr
  | ErrClosed
  | ErrShortWrite
  | ErrOther (msg : string).

(** [net.IP] is a byte slice of length 4 or 16. *)
Abbreviation IP := (list Z).

Definition v4InV6Prefix : IP := [0; 0; 0; 0; 0; 0; 0; 0; 0; 0; 255; 255].
Definition IPv4zero : IP := v4InV6Prefix ++ [0; 0; 0; 0].
Definition IPv6unspecified : IP := replicate 16 0.

(** [IP.To4], [IP.Equal] and [IP.IsUnspecified] of Go's [net]. *)
Definition To4 (ip : IP) : option IP :=
  if decide (length ip = 4%nat) then Some ip
  else if decide (length ip = 16%nat /\ take 12 ip = v4InV6Prefix)
       then Some (drop 12 ip)
       else None.

Definition IP_Equal (ip x : IP) : bool :=
  if decide (length ip = length x) then bool_decide (ip = x)
  else if decide (length ip = 4%nat /\ length x = 16%nat)
       then bool_decide (take 12 x = v4InV6Prefix) && bool_decide (ip = drop 12 x)
  else if decide (length ip = 16%nat /\ length x = 4%nat)
       then bool_decide (take 12 ip = v4InV6Prefix) && bool_decide (drop 12 ip = x)
  else false.

Definition IsUnspecified (ip : IP) : bool :=
  IP_Equal ip IPv4zero || IP_Equal ip IPv6unspecified.

Definition UDPv4 : string := "udp4".
Definition UDPv6 : string := "udp6".

(** [addr]: the hashname, the network name and the embedded
    [net.UDPAddr]. *)
Record addr : Set := mk_addr {
  hn : string;
  net : string;
  addr_IP : IP;
  Port : Z;
  Zone : string
}.

(** [NewAddr(ip net.IP, port uint16)]; [None] is the [nil] slice. *)
Definition NewAddr (ip : option IP) (port : Z) : error + addr :=
  match ip with
  | None => inl (ErrOther "udp: invalid address")
  | Some ip =>
      if decide (port = 0) then inl (ErrOther "udp: invalid address")
      else inr (mk_addr "" (match To4 ip with None => UDPv6 | Some _ => UDPv4 end)
                        ip port "")
  end.

(** The object [{"type": ..., "ip": ..., "port": ...}].  [encoding/json]
    writes the three fields of the struct and reads them back as they are,
    so a JSON text stands here for the object it denotes, and [None] for a
    text that [json.Unmarshal] rejects. *)
Record desc : Set := mk_desc {
  desc_Type : string;
  desc_IP : string;
  desc_Port : Z
}.

(** [net.IPNet] and the socket. *)
Record IPNet : Set := mk_IPNet { net_IP : IP; Mask : list Z }.

Record transport : Set := mk_transport {
  t_net : string;
  dest : IPNet
}.

(** A [transports.Addr] interface value: [nil], an [*addr] (itself maybe
    [nil]), or the address of some other transport. *)
Inductive transports_Addr : Set :=
  | NilAddr
  | UDPAddr (a : option addr)
  | ForeignAddr (network : string).

(** [IP.To16]: the 16-byte form, or [nil] for a slice of another length. *)
Definition To16 (ip : IP) : IP :=
  if decide (length ip = 4%nat) then v4InV6Prefix ++ ip
  else if decide (length ip = 16%nat) then ip
  else [].

Definition Network (a : addr) : string := net a.

Definition Hashname (a : addr) : string := hn a.

(** [Associate]: a copy of the address with the hashname set. *)
Definition Associate (a : addr) (h : string) : addr :=
  mk_addr h (net a) (addr_IP a) (Port a) (Zone a).

(** [MakeGlobal], on an [*addr] that may be [nil]. *)
Definition MakeGlobal (a : option addr) (ip : IP) (port : Z) : option addr :=
  match a with
  | None => None
  | Some a => Some (mk_addr "" (net a) ip port "")
  end.

(** Dotted-decimal text of the IPv4 addresses, as [IP.String] writes it and
    [net.ParseIP] reads it (into the 16-byte form): four fields of decimal
    digits, each at most 255 and, when of more than one digit, without a
    leading zero.  The examples use it where the theorems take any text
    form. *)
Definition dec_digit (d : Z) : ascii := ascii_of_N (Z.to_N (48 + d)).

Definition dec_byte (b : Z) : string :=
  if b <? 10 then String (dec_digit b) EmptyString
  else if b <? 100
       then String (dec_digit (b / 10)) (String (dec_digit (b mod 10)) EmptyString)
       else String (dec_digit (b / 100))
              (String (dec_digit (b / 10 mod 10))
                 (String (dec_digit (b mod 10)) EmptyString)).

Definition dotted_String (ip : IP) : string :=
  match To4 ip with
  | Some [a; b; c; d] =>
      dec_byte a +:+ "." +:+ dec_byte b +:+ "." +:+ dec_byte c +:+ "."
        +:+ dec_byte d
  | _ => "?"
  end.

Fixpoint dotted_fields (s : string) (cur : option Z) (acc : list Z)
    : option (list Z) :=
  match s with
  | EmptyString =>
      match cur with
      | Some v => Some (acc ++ [v])
      | None => None
      end
  | String c rest =>
      let n := Z.of_N (N_of_ascii c) in
      if decide (n = 46) then
        match cur with
        | Some v => dotted_fields rest None (acc ++ [v])
        | None => None
        end
      else if decide (48 <= n <= 57) then
        match cur with
        | Some 0 => None
        | _ =>
            let v := 10 * default 0 cur + (n - 48) in
            if decide (v <= 255) then dotted_fields rest (Some v) acc else None
        end
      else None
  end.

Definition dotted_ParseIP (s : string) : option IP :=
  match dotted_fields s None [] with
  | Some [a; b; c; d] => Some (v4InV6Prefix ++ [a; b; c; d])
  | _ => None
  end.

Section Net.

(** The text form of an IP, CIDR membership and the socket write are the Go
    library's. *)
Variable IP_String : IP -> string.
Variable ParseIP : string -> option IP.
Variable Contains : IPNet -> IP -> bool.
Variable WriteToUDP : list Z -> addr -> Z * option error.

Definition decodeAddress (data : option desc) : error + addr :=
  match data with
  | None => inl ErrInvalidAddr
  | Some d =>
      match ParseIP (desc_IP d) with
      | None => inl ErrInvalidAddr
      | Some ip =>
          if IsUnspecified ip then inl ErrInvalidAddr
          else if decide (desc_Port d <= 0 \/ desc_Port d >= 65535)
               then inl ErrInvalidAddr
               else inr (mk_addr "" (desc_Type d) ip (desc_Port d) "")
      end
  end.

Definition MarshalJSON (a : addr) : option desc :=
  Some (mk_desc (net a) (IP_String (addr_IP a)) (Port a)).

Definition Equal (a b : addr) : bool :=
  if negb (IP_Equal (addr_IP a) (addr_IP b)) then false
  else if decide (Port a <> Port b) then false
  else true.

(** [transport.WriteMessage]: the error returned, and the datagrams handed
    to the socket. *)
Definition WriteMessage (t : transport) (p : list Z) (dst : transports_Addr)
    : option error * list (list Z * addr) :=
  match dst with
  | UDPAddr (Some a) =>
      if decide (net a <> t_net t) then (Some ErrInvalidAddr, [])
      else if negb (Contains (dest t) (addr_IP a)) then (Some ErrInvalidAddr, [])
      else
        let '(n, err) := WriteToUDP p a in
        match err with
        | Some e => (Some e, [(p, a)])
        | None =>
            if decide (n <> Z.of_nat (length p))
            then (Some ErrShortWrite, [(p, a)])
            else (None, [(p, a)])
        end
  | _ => (Some ErrInvalidAddr, [])
  end.

(** The destinations the specification has refused: no UDP address, another
    network family than the transport's, or an IP outside the destination
    network. *)
Definition refused (t : transport) (dst : transports_Addr) : Prop :=
  match dst with
  | UDPAddr (Some a) =>
      net a <> t_net t \/ Contains (dest t) (addr_IP a) = false
  | _ => True
  end.

(** An address survives the JSON round trip when its port lies strictly
    between 0 and 65535 and its IP, read back from its text, is an equal and
    specified IP. *)
Lemma decodeAddress_MarshalJSON a ip :
  ParseIP (IP_String (addr_IP a)) = Some ip ->
  IP_Equal (addr_IP a) ip = true ->
  IsUnspecified ip = false ->
  0 < Port a < 65535 ->
  exists b, decodeAddress (MarshalJSON a) = inr b /\ Equal a b = true.
Proof.
  intros Hparse Heq Hspec Hport.
  exists (mk_addr "" (net a) ip (Port a) ""). unfold decodeAddress, MarshalJSON.
  simpl. rewrite Hparse, Hspec. rewrite decide_False by lia.
  split; [reflexivity |]. unfold Equal. simpl. rewrite Heq. simpl.
  by rewrite decide_False by (intros H; by apply H).
Qed.

(** C3 at port 65535: [NewAddr] builds the address 127.0.0.1:65535, whose
    JSON form [decodeAddress] then refuses, whatever the text form of the
    IP. *)
Theorem decodeAddress_refuses_port_65535 :
  exists a,
    NewAddr (Some [127; 0; 0; 1]) 65535 = inr a /\
    Port a = 65535 /\ net a = UDPv4 /\
    decodeAddress (MarshalJSON a) = inl ErrInvalidAddr.
Proof.
  eexists. split; [reflexivity |]. repeat split.
  unfold decodeAddress, MarshalJSON. simpl.
  destruct (ParseIP (IP_String [127; 0; 0; 1])) as [ip|]; [| reflexivity].
  destruct (IsUnspecified ip); reflexivity.
Qed.

(** C10 (amended): a destination that is no UDP address, is of another
    network family or lies outside the destination network is answered with
    [ErrInvalidAddr] and nothing is sent; any other datagram is handed to the
    socket, whose error is returned if it reports one; if it reports none,
    the answer is [io.ErrShortWrite] exactly when the count of bytes written
    is not the length of the payload, and no error otherwise. *)
Theorem WriteMessage_outcome t p dst :
  (refused t dst -> WriteMessage t p dst = (Some ErrInvalidAddr, [])) /\
  (forall a n err,
     dst = UDPAddr (Some a) -> ~ refused t dst ->
     WriteToUDP p a = (n, err) ->
     (WriteMessage t p dst).2 = [(p, a)] /\
     (forall e, err = Some e -> (WriteMessage t p dst).1 = Some e) /\
     (err = None ->
      ((WriteMessage t p dst).1 = Some ErrShortWrite <->
         n <> Z.of_nat (length p)) /\
      ((WriteMessage t p dst).1 = None <-> n = Z.of_nat (length p)))).
Proof.
  split.
  - destruct dst as [|[a|]|]; simpl; try done. intros [Hnet|Hout].
    + by rewrite decide_True.
    + destruct (decide (net a <> t_net t)); [done |]. by rewrite Hout.
  - intros a n err -> Hok Hw. simpl in *.
    destruct (decide (net a <> t_net t)) as [Hnet|_]; [tauto |].
    destruct (Contains (dest t) (addr_IP a)) eqn:Hc; [| tauto]. simpl.
    rewrite Hw. destruct err as [e|].
    + split; [done |]. split; [by intros ? [= ->] | done].
    + destruct (decide (n <> Z.of_nat (length p))) as [Hn|Hn]; simpl.
      * repeat split; try done.
      * apply dec_stable in Hn. repeat split; try done.
Qed.

End Net.

(** C10 as stated fails: the socket refuses the datagram, nothing of the
    three bytes is written, and the answer is the socket's error, not
    [io.ErrShortWrite]. *)
Lemma WriteMessage_returns_socket_error :
  let t := mk_transport UDPv4 (mk_IPNet [0; 0; 0; 0] [0; 0; 0; 0]) in
  let a := mk_addr "" UDPv4 [10; 0; 0; 7] 4242 "" in
  let unreachable := ErrOther "sendto: network is unreachable" in
  let WriteToUDP := fun (_ : list Z) (_ : addr) => (0, Some unreachable) in
  (WriteToUDP [1; 2; 3] a).1 < Z.of_nat (length [1; 2; 3]) /\
  WriteMessage (fun _ _ => true) WriteToUDP t [1; 2; 3] (UDPAddr (Some a))
    = (Some unreachable, [([1; 2; 3], a)]) /\
  Some unreachable <> Some ErrShortWrite.
Proof.
  split; [simpl; lia |]. split; [reflexivity | discriminate].
Qed.

(** *** Addresses *)

Lemma IP_Equal_true (ip x : IP) :
  IP_Equal ip x = true <->
  ip = x \/
  (length ip = 4%nat /\ x = v4InV6Prefix ++ ip) \/
  (length x = 4%nat /\ ip = v4InV6Prefix ++ x).
Proof.
  assert (Hsplit : forall l r : IP, length l = 16%nat ->
            (take 12 l = v4InV6Prefix /\ r = drop 12 l) <->
            l = v4InV6Prefix ++ r).
  { intros l r Hl. split.
    - intros [Ht ->]. by rewrite <- Ht, take_drop.
    - intros ->. by rewrite take_app_length', drop_app_length'. }
  unfold IP_Equal.
  destruct (decide (length ip = length x)) as [Hlen|Hlen].
  - rewrite bool_decide_eq_true. split; [auto |].
    intros [?|[[H4 ->]|[H4 ->]]]; [done | |];
      rewrite length_app in Hlen; simpl in Hlen; lia.
  - destruct (decide (length ip = 4%nat /\ length x = 16%nat)) as [[H4 H16]|Hn1].
    + rewrite andb_true_iff, !bool_decide_eq_true, (Hsplit x ip H16).
      split; [auto |].
      intros [->|[[_ ->]|[H4' ->]]]; [done | done |].
      rewrite length_app in H4. simpl in H4. lia.
    + destruct (decide (length ip = 16%nat /\ length x = 4%nat))
        as [[H16 H4]|Hn2].
      * rewrite andb_true_iff, !bool_decide_eq_true.
        assert ((take 12 ip = v4InV6Prefix /\ drop 12 ip = x) <->
                ip = v4InV6Prefix ++ x) as ->.
        { rewrite <- (Hsplit ip x H16). split; intros [? ?]; done. }
        split; [auto |].
        intros [->|[[H4' ->]|[_ ->]]]; [done | | done].
        rewrite length_app in H4. simpl in H4. lia.
      * split; [done |].
        intros [->|[[H4 ->]|[H4 ->]]]; [done | |].
        -- exfalso. apply Hn1. rewrite length_app. simpl. lia.
        -- exfalso. apply Hn2. rewrite length_app. simpl. lia.
Qed.

Lemma IP_Equal_refl (ip : IP) : IP_Equal ip ip = true.
Proof. apply IP_Equal_true. by left. Qed.

Lemma IP_Equal_sym (ip x : IP) : IP_Equal ip x = IP_Equal x ip.
Proof.
  apply eq_true_iff_eq. rewrite !IP_Equal_true.
  split; intros [?|[?|?]]; auto.
Qed.

Lemma IP_Equal_trans (a b c : IP) :
  IP_Equal a b = true -> IP_Equal b c = true -> IP_Equal a c = true.
Proof.
  rewrite !IP_Equal_true.
  intros [->|[[Ha ->]|[Hb ->]]] [Hbc|[[Hb' Hbc]|[Hc Hbc]]]; subst; auto.
  all: try (exfalso; rewrite length_app in *; simpl in *; lia).
  all: match goal with
       | H : _ ++ _ = _ ++ _ |- _ => apply app_inv_head in H; subst; auto
       end.
Qed.

(** [Equal] is an equivalence on addresses: it compares the IPs by
    [IP.Equal], under which a 4-byte IP and its 16-byte form are the same,
    and the ports, and looks at nothing else. *)
Theorem Equal_equivalence :
  (forall a, Equal a a = true) /\
  (forall a b, Equal a b = Equal b a) /\
  (forall a b c, Equal a b = true -> Equal b c = true -> Equal a c = true) /\
  (forall a b, Equal a b = true <->
     IP_Equal (addr_IP a) (addr_IP b) = true /\ Port a = Port b).
Proof.
  assert (Hiff : forall a b, Equal a b = true <->
            IP_Equal (addr_IP a) (addr_IP b) = true /\ Port a = Port b).
  { intros a b. unfold Equal.
    destruct (IP_Equal (addr_IP a) (addr_IP b)); simpl; [| by intuition].
    destruct (decide (Port a <> Port b)) as [Hne|Heq].
    - by intuition.
    - apply dec_stable in Heq. by intuition. }
  split; [| split; [| split; [| exact Hiff]]].
  - intros a. apply Hiff. by rewrite IP_Equal_refl.
  - intros a b. apply eq_true_iff_eq. rewrite !Hiff, IP_Equal_sym.
    by intuition.
  - intros a b c [Hab Hp]%Hiff [Hbc Hq]%Hiff. apply Hiff. split.
    + by eapply IP_Equal_trans.
    + congruence.
Qed.

(** The hashname that [Associate] sets is read back by [Hashname] and
    changes nothing else: the associated address is [Equal] to the original
    and of the same network.  The association does not travel: the JSON
    form of the associated address is that of the original, and
    [MakeGlobal] drops it. *)
Theorem Associate_only_sets_hashname (IP_String : IP -> string)
    (a : addr) (h : string) :
  Hashname (Associate a h) = h /\
  Network (Associate a h) = Network a /\
  Equal a (Associate a h) = true /\
  MarshalJSON IP_String (Associate a h) = MarshalJSON IP_String a /\
  (forall ip port,
     MakeGlobal (Some (Associate a h)) ip port = MakeGlobal (Some a) ip port).
Proof.
  repeat split. unfold Equal, Associate. simpl.
  rewrite IP_Equal_refl. simpl. by rewrite decide_False by (intros H; by apply H).
Qed.

(** [NewAddr] refuses only a [nil] IP and port 0.  It does not look at the
    length of the IP: whatever the slice, the address is built around it,
    on network udp4 when [To4] knows the IP and on udp6 when it does not. *)
Theorem NewAddr_accepts (ip : option IP) (port : Z) :
  ((exists e, NewAddr ip port = inl e) <-> ip = None \/ port = 0) /\
  (forall a, NewAddr ip port = inr a ->
     ip = Some (addr_IP a) /\ Port a = port /\ Hashname a = EmptyString /\
     (net a = UDPv4 <->
        length (addr_IP a) = 4%nat \/
        (length (addr_IP a) = 16%nat /\ take 12 (addr_IP a) = v4InV6Prefix)) /\
     (net a <> UDPv4 -> net a = UDPv6)).
Proof.
  unfold NewAddr. split.
  - destruct ip as [ip|]; [| by split; eauto].
    destruct (decide (port = 0)) as [->|Hp]; [by split; eauto |].
    split; [by intros [e [=]] | by intros [[=]|?]].
  - intros a. destruct ip as [ip|]; [| done].
    destruct (decide (port = 0)); [done |]. intros [= <-]. simpl.
    repeat split.
    + unfold To4.
      destruct (decide (length ip = 4%nat)); [auto |].
      destruct (decide (length ip = 16%nat /\ take 12 ip = v4InV6Prefix));
        [auto | done].
    + unfold To4. intros [H4|H16].
      * by rewrite decide_True.
      * destruct (decide (length ip = 4%nat)); [done |].
        by rewrite decide_True.
    + destruct (To4 ip); done.
Qed.

(** What [decodeAddress] lets through: its only error is
    [ErrInvalidAddr]; an address it returns has the type field for network
    name, whatever that is and whatever the family of the IP, an IP that
    parsed and is specified, a port from 1 to 65534, and neither hashname
    nor zone. *)
Theorem decodeAddress_result (ParseIP : string -> option IP)
    (data : option desc) :
  match decodeAddress ParseIP data with
  | inl e => e = ErrInvalidAddr
  | inr b =>
      exists d,
        data = Some d /\
        ParseIP (desc_IP d) = Some (addr_IP b) /\
        Network b = desc_Type d /\ Port b = desc_Port d /\
        0 < Port b < 65535 /\
        IsUnspecified (addr_IP b) = false /\
        Hashname b = EmptyString /\ Zone b = EmptyString
  end.
Proof.
  unfold decodeAddress. destruct data as [d|]; [| done].
  destruct (ParseIP (desc_IP d)) as [ip|] eqn:Hip; [| done].
  destruct (IsUnspecified ip) eqn:Hu; [done |].
  destruct (decide (desc_Port d <= 0 \/ desc_Port d >= 65535)); [done |].
  exists d. simpl. repeat split; try done; lia.
Qed.

Lemma decodeAddress_MarshalJSON_witness :
  let a := mk_addr "" UDPv4 [10; 0; 0; 7] 4242 "" in
  exists b,
    decodeAddress dotted_ParseIP (MarshalJSON dotted_String a) = inr b /\
    Equal a b = true.
Proof.
  cbv zeta.
  apply (decodeAddress_MarshalJSON dotted_String dotted_ParseIP
           (mk_addr "" UDPv4 [10; 0; 0; 7] 4242 "")
           (v4InV6Prefix ++ [10; 0; 0; 7])).
  - vm_compute. reflexivity.
  - vm_compute. reflexivity.
  - vm_compute. reflexivity.
  - simpl. lia.
Defined.

(** *** The socket side of the transport *)

(** [net.UDPAddr] by itself, and what [ReadFromUDP] hands back: an error,
    of which the code reads the text only, or [n] bytes and their sender. *)
Record net_UDPAddr : Set := mk_net_UDPAddr {
  u_IP : IP;
  u_Port : Z;
  u_Zone : string
}.

Inductive udp_read : Set :=
  | ReadFailed (n : Z) (msg : string)
  | ReadDone (n : Z) (a : net_UDPAddr).

Definition errUseOfClosedNet : string := "use of closed network connection".

Definition ReadMessage (t : transport) (rd : udp_read)
    : Z * option addr * option error :=
  match rd with
  | ReadFailed _ msg =>
      (0, None,
       Some (if decide (msg = errUseOfClosedNet) then ErrClosed
             else ErrOther msg))
  | ReadDone n a =>
      (n, Some (mk_addr "" (t_net t) (u_IP a) (u_Port a) (u_Zone a)), None)
  end.

Record Config : Set := mk_Config {
  cfg_Network : string;
  cfg_Addr : string;
  cfg_Dest : string
}.

(** An address of an interface, as the type switch of [LocalAddresses]
    sees it. *)
Inductive iface_addr : Set :=
  | IfIPAddr (ip : IP) (zone : string)
  | IfIPNet (ip : IP)
  | IfOther.

Section Socket.

(** Name resolution, CIDR parsing and membership, listening, the socket
    write, the interfaces of the host and the classes of IPs are the Go
    library's and the system's.  An error of theirs is its text;
    [ListenUDP] gives the address [conn.LocalAddr()] reports; [Interfaces]
    is [None] when [net.Interfaces] fails and holds [None] for an interface
    whose [Addrs] fails. *)
Variable ResolveUDPAddr : string -> string -> string + net_UDPAddr.
Variable ParseCIDR : string -> string + IPNet.
Variable ListenUDP : string -> net_UDPAddr -> string + net_UDPAddr.
Variable Contains : IPNet -> IP -> bool.
Variable WriteToUDP : list Z -> addr -> Z * option error.
Variable Interfaces : option (list (option (list iface_addr))).
Variables IsLoopback IsMulticast IsInterfaceLocalMulticast
          IsLinkLocalMulticast : IP -> bool.

(** [Config.Open]: the transport, and the local address it listens on. *)
Definition Open (c : Config) : error + (transport * net_UDPAddr) :=
  let network := if decide (cfg_Network c = EmptyString) then UDPv4
                 else cfg_Network c in
  let address := if decide (cfg_Addr c = EmptyString) then ":0"%string
                 else cfg_Addr c in
  let destination :=
    if decide (cfg_Dest c = EmptyString)
    then (if decide (network = UDPv4) then "0.0.0.0/0" else "::0/0")%string
    else cfg_Dest c in
  if decide (network <> UDPv4 /\ network <> UDPv6)
  then inl (ErrOther "udp: Network must be either `udp4` or `udp6`")
  else
    match ResolveUDPAddr network address with
    | inl e => inl (ErrOther e)
    | inr laddr =>
        if decide (network = UDPv4 /\ u_IP laddr <> [] /\ To4 (u_IP laddr) = None)
        then inl (ErrOther "udp: expected a IPv4 address")
        else if decide (network = UDPv6 /\ u_IP laddr <> [] /\
                        To4 (u_IP laddr) <> None)
        then inl (ErrOther "udp: expected a IPv6 address")
        else
          match ParseCIDR destination with
          | inl e => inl (ErrOther e)
          | inr ipnet =>
              if decide (network = UDPv4 /\ net_IP ipnet <> [] /\
                         To4 (net_IP ipnet) = None)
              then inl (ErrOther "udp: expected a IPv4 network")
              else if decide (network = UDPv6 /\ net_IP ipnet <> [] /\
                              To4 (net_IP ipnet) <> None)
              then inl (ErrOther "udp: expected a IPv6 network")
              else
                match ListenUDP network laddr with
                | inl e => inl (ErrOther e)
                | inr bound => inr (mk_transport network ipnet, bound)
                end
          end
    end.

(** The addresses one IP contributes, by the [switch] on [t.net]. *)
Definition local_addr (t : transport) (ip : IP) (port : Z) (zone : string)
    : list addr :=
  if decide (t_net t = UDPv4) then
    match To4 ip with
    | Some v4 => [mk_addr "" (t_net t) v4 port zone]
    | None => []
    end
  else if decide (t_net t = UDPv6) then
    match To4 ip with
    | None => [mk_addr "" (t_net t) (To16 ip) port zone]
    | Some _ => []
    end
  else [].

Definition iface_local_addr (t : transport) (port : Z) (ia : iface_addr)
    : list addr :=
  let '(ip, zone) :=
    match ia with
    | IfIPAddr ip zone => (ip, zone)
    | IfIPNet ip => (ip, EmptyString)
    | IfOther => ([], EmptyString)
    end in
  if IsMulticast ip || IsUnspecified ip || IsInterfaceLocalMulticast ip
     || IsLinkLocalMulticast ip
  then []
  else local_addr t ip port zone.

(** [transport.LocalAddresses], for the local address [laddr]. *)
Definition LocalAddresses (t : transport) (laddr : net_UDPAddr) : list addr :=
  if negb (IsUnspecified (u_IP laddr))
  then local_addr t (u_IP laddr) (u_Port laddr) (u_Zone laddr)
  else
    match Interfaces with
    | None => []
    | Some ifaces =>
        ifaces ≫= (fun iaddrs =>
          match iaddrs with
          | None => []
          | Some iaddrs => iaddrs ≫= iface_local_addr t (u_Port laddr)
          end)
    end.

(** [InternalAddr], on an [*addr] that may be [nil]. *)
Definition InternalAddr (a : option addr) : string * option IP * Z :=
  match a with
  | None => (EmptyString, None, -1)
  | Some a =>
      if IsLoopback (addr_IP a) || IsMulticast (addr_IP a)
         || IsUnspecified (addr_IP a)
         || IsInterfaceLocalMulticast (addr_IP a)
         || IsLinkLocalMulticast (addr_IP a)
      then (EmptyString, None, -1)
      else ("udp"%string, Some (addr_IP a), Port a)
  end.

(** A failed read is answered with no bytes and no sender, and with
    [ErrClosed] exactly when the text of the error says the connection is
    closed.  The sender of a datagram read on a transport is an address of
    that transport's network, so a datagram back to it is refused exactly
    when its IP lies outside the destination network, and is handed to the
    socket otherwise. *)
Theorem ReadMessage_then_WriteMessage (t : transport) :
  (forall n msg,
     exists e, ReadMessage t (ReadFailed n msg) = (0, None, Some e) /\
               (e = ErrClosed <-> msg = errUseOfClosedNet)) /\
  (forall n a,
     exists src,
       ReadMessage t (ReadDone n a) = (n, Some src, None) /\
       Network src = t_net t /\ Hashname src = EmptyString /\
       addr_IP src = u_IP a /\ Port src = u_Port a /\
       forall p,
         (refused Contains t (UDPAddr (Some src))
            <-> Contains (dest t) (u_IP a) = false) /\
         (WriteMessage Contains WriteToUDP t p (UDPAddr (Some src))
            = (Some ErrInvalidAddr, [])
            <-> Contains (dest t) (u_IP a) = false) /\
         ((WriteMessage Contains WriteToUDP t p (UDPAddr (Some src))).2
            = [(p, src)]
            <-> Contains (dest t) (u_IP a) = true)).
Proof.
  split.
  - intros n msg. eexists. split; [reflexivity |].
    destruct (decide (msg = errUseOfClosedNet)); by split.
  - intros n a. eexists. split; [reflexivity |]. simpl.
    repeat split; try done.
    + intros [?|?]; done.
    + by right.
    + rewrite decide_False by (intros H; by apply H).
      destruct (Contains (dest t) (u_IP a)); simpl; [| done].
      destruct (WriteToUDP p _) as [k [e|]]; [done |].
      destruct (decide (k <> Z.of_nat (length p))); done.
    + rewrite decide_False by (intros H; by apply H).
      by intros ->.
    + rewrite decide_False by (intros H; by apply H).
      destruct (Contains (dest t) (u_IP a)); simpl; done.
    + rewrite decide_False by (intros H; by apply H).
      intros ->. simpl.
      destruct (WriteToUDP p _) as [k [e|]]; [done |].
      destruct (decide (k <> Z.of_nat (length p))); done.
Qed.

(** A transport is opened only on network udp4 or udp6, udp4 standing in
    for a blank name, and for any other name [Open] fails whatever the
    system would answer.  The destination network of an opened transport is
    the one parsed from [Dest], or from the all-addresses network of the
    family when [Dest] is blank, and its IP is of the family of the
    network. *)
Theorem Open_checks_families (c : Config) :
  (cfg_Network c <> EmptyString -> cfg_Network c <> UDPv4 ->
   cfg_Network c <> UDPv6 ->
   Open c = inl (ErrOther "udp: Network must be either `udp4` or `udp6`")) /\
  (forall t bound, Open c = inr (t, bound) ->
     (t_net t = UDPv4 \/ t_net t = UDPv6) /\
     t_net t = (if decide (cfg_Network c = EmptyString) then UDPv4
                else cfg_Network c) /\
     ParseCIDR
       (if decide (cfg_Dest c = EmptyString)
        then (if decide (t_net t = UDPv4) then "0.0.0.0/0" else "::0/0")%string
        else cfg_Dest c) = inr (dest t) /\
     (t_net t = UDPv4 ->
        net_IP (dest t) = [] \/ To4 (net_IP (dest t)) <> None) /\
     (t_net t = UDPv6 ->
        net_IP (dest t) = [] \/ To4 (net_IP (dest t)) = None)).
Proof.
  unfold Open. split.
  - intros Hb H4 H6. rewrite (decide_False (P := cfg_Network c = EmptyString))
      by done.
    by rewrite decide_True.
  - intros t bound.
    set (network := if decide (cfg_Network c = EmptyString) then UDPv4
                    else cfg_Network c).
    destruct (decide (network <> UDPv4 /\ network <> UDPv6)) as [|Hfam];
      [done |].
    destruct (ResolveUDPAddr network _) as [e|laddr]; [done |].
    destruct (decide (network = UDPv4 /\ _)); [done |].
    destruct (decide (network = UDPv6 /\ _)); [done |].
    destruct (ParseCIDR _) as [e|ipnet] eqn:Hcidr; [done |].
    destruct (decide (network = UDPv4 /\ _)) as [|Hv4]; [done |].
    destruct (decide (network = UDPv6 /\ _)) as [|Hv6]; [done |].
    destruct (ListenUDP network laddr) as [e|b]; [done |].
    intros [= <- <-]. simpl. repeat split; try done.
    + destruct (decide (network = UDPv4)); [by left | right].
      destruct (decide (network = UDPv6)); [done | tauto].
    + intros Hnet. destruct (decide (net_IP ipnet = [])); [by left | right].
      intros HTo4. apply Hv4. done.
    + intros Hnet. destruct (decide (net_IP ipnet = [])); [by left | right].
      destruct (To4 (net_IP ipnet)) eqn:HTo4; [| done].
      exfalso. apply Hv6. done.
Qed.

Lemma To4_length (ip v4 : IP) : To4 ip = Some v4 -> length v4 = 4%nat.
Proof.
  unfold To4. destruct (decide (length ip = 4%nat)) as [H4|_].
  - by intros [= <-].
  - destruct (decide (length ip = 16%nat /\ _)) as [[H16 _]|_]; [| done].
    intros [= <-]. rewrite length_drop. lia.
Qed.

Lemma To4_To16 (ip : IP) : To4 ip = None -> To4 (To16 ip) = None.
Proof.
  unfold To4, To16. intros Hnone.
  destruct (decide (length ip = 4%nat)); [done |].
  destruct (decide (length ip = 16%nat)); [| reflexivity].
  by rewrite decide_False.
Qed.

Lemma local_addr_family (t : transport) ip port zone (a : addr) :
  a ∈ local_addr t ip port zone ->
  Network a = t_net t /\ Port a = port /\ Hashname a = EmptyString /\
  (t_net t = UDPv4 /\ length (addr_IP a) = 4%nat \/
   t_net t = UDPv6 /\ To4 (addr_IP a) = None).
Proof.
  unfold local_addr.
  destruct (decide (t_net t = UDPv4)) as [H4|H4].
  - destruct (To4 ip) as [v4|] eqn:Hv4; [| by intros ?%elem_of_nil].
    intros ->%list_elem_of_singleton. simpl. repeat split.
    left. split; [done |]. by eapply To4_length.
  - destruct (decide (t_net t = UDPv6)) as [H6|H6];
      [| by intros ?%elem_of_nil].
    destruct (To4 ip) as [v4|] eqn:Hv4; [by intros ?%elem_of_nil |].
    intros ->%list_elem_of_singleton. simpl. repeat split.
    right. split; [done |]. by apply To4_To16.
Qed.

(** Every address [LocalAddresses] reports is on the transport's network
    and the port the transport listens on, carries no hashname, and has an
    IP of the family of the network: four bytes on udp4, and on udp6 none
    that [To4] knows.  With a specified local IP at most one address is
    reported, and on any other network name none. *)
Theorem LocalAddresses_of_the_family (t : transport) (laddr : net_UDPAddr) :
  (forall a, a ∈ LocalAddresses t laddr ->
     Network a = t_net t /\ Port a = u_Port laddr /\
     Hashname a = EmptyString /\
     (t_net t = UDPv4 /\ length (addr_IP a) = 4%nat \/
      t_net t = UDPv6 /\ To4 (addr_IP a) = None)) /\
  (IsUnspecified (u_IP laddr) = false ->
     (length (LocalAddresses t laddr) <= 1)%nat) /\
  (t_net t <> UDPv4 -> t_net t <> UDPv6 -> LocalAddresses t laddr = []).
Proof.
  split; [| split].
  - intros a. unfold LocalAddresses.
    destruct (IsUnspecified (u_IP laddr)); simpl.
    + destruct Interfaces as [ifaces|]; [| by intros ?%elem_of_nil].
      intros (iaddrs & Ha & _)%list_elem_of_bind.
      destruct iaddrs as [iaddrs|]; [| by apply elem_of_nil in Ha].
      apply list_elem_of_bind in Ha as (ia & Ha & _).
      unfold iface_local_addr in Ha.
      destruct ia as [ip zone | ip |];
        destruct (_ || _) in Ha; try (by apply elem_of_nil in Ha);
        by eapply local_addr_family.
    + by apply local_addr_family.
  - intros Hs. unfold LocalAddresses, local_addr. rewrite Hs. simpl.
    destruct (decide (t_net t = UDPv4)); [destruct (To4 _); simpl; lia |].
    destruct (decide (t_net t = UDPv6)); [destruct (To4 _); simpl; lia |].
    simpl. lia.
  - intros H4 H6.
    assert (Hnone : forall ip port zone, local_addr t ip port zone = []).
    { intros. unfold local_addr. by rewrite !decide_False. }
    unfold LocalAddresses. destruct (negb _); [apply Hnone |].
    destruct Interfaces as [ifaces|]; [| done].
    induction ifaces as [|[iaddrs|] ifaces IH]; [done | | done].
    rewrite bind_cons, IH, app_nil_r.
    induction iaddrs as [|ia iaddrs IHi]; [done |].
    rewrite bind_cons, IHi, app_nil_r. unfold iface_local_addr.
    destruct ia; destruct (_ || _); by rewrite ?Hnone.
Qed.

(** [InternalAddr] gives nothing for a [nil] address and for a loopback,
    multicast or unspecified IP; for any other address it gives the protocol
    name udp with the IP and port of the address, from which [MakeGlobal]
    rebuilds an [Equal] address on the same network. *)
Theorem InternalAddr_MakeGlobal (a : option addr) :
  match InternalAddr a with
  | (proto, Some ip, port) =>
      proto = "udp"%string /\
      IsLoopback ip = false /\ IsMulticast ip = false /\
      IsUnspecified ip = false /\
      exists a0 b,
        a = Some a0 /\ MakeGlobal a ip port = Some b /\
        Equal a0 b = true /\ Network b = Network a0
  | (proto, None, port) =>
      proto = EmptyString /\ port = -1 /\
      (a = None \/
       exists a0, a = Some a0 /\
         (IsLoopback (addr_IP a0) || IsMulticast (addr_IP a0)
          || IsUnspecified (addr_IP a0)
          || IsInterfaceLocalMulticast (addr_IP a0)
          || IsLinkLocalMulticast (addr_IP a0)) = true)
  end.
Proof.
  unfold InternalAddr. destruct a as [a0|]; [| by auto].
  destruct (_ || _) eqn:Hhide.
  - repeat split. right. by exists a0.
  - repeat (apply orb_false_iff in Hhide as [Hhide ?]).
    repeat split; try done.
    exists a0, (mk_addr "" (net a0) (addr_IP a0) (Port a0) "").
    repeat split. unfold Equal. simpl. rewrite IP_Equal_refl. simpl.
    by rewrite decide_False by (intros H'; by apply H').
Qed.

End Socket.

End UDP.

(** ** Inbound channel dispatch (package telehash, peer.go) *)

Module Peer.

Inductive error : Set :=
  | errInvalidPkt
  | errOther (msg : string).

(** The header fields [push_rcv_pkt] reads.  [Seq] is set or not; [Get] is
    asked for its value only when it is set. *)
Record hdr_t : Set := mk_hdr {
  C : string;
  Type_ : string;
  Seq : option Z
}.

Record channel_t : Set := mk_channel {
  channel_id : string;
  channel_type : string;
  initiator : bool
}.

Section Dispatch.

(** [addr_t], the channel constructor [make_channel(sw, peer, id, typ,
    initiator)] and [channel_t.push_rcv_pkt] are declared outside the
    sources at hand. *)
Context {addr_t : Type}.

Record pkt_t : Type := mk_pkt {
  hdr : hdr_t;
  pkt_addr : addr_t;
  body : list Z
}.

Variable make_channel : string -> string -> bool -> error + channel_t.
Variable channel_push_rcv_pkt : channel_t -> pkt_t -> option error.

Record peer_t : Type := mk_peer {
  addr : addr_t;
  channels : gmap string channel_t
}.

(** What a call does besides returning: the packets it pushed to channels
    and the user handlers it started with [go]. *)
Record effects : Type := mk_effects {
  pushed : list (channel_t * pkt_t);
  started : list channel_t
}.

Definition no_effects : effects := mk_effects [] [].

(** [peer_t.make_channel]: build the channel and enter it in the table
    under its own id. *)
Definition peer_make_channel (p : peer_t) (id typ : string) (ini : bool)
    : (error + channel_t) * peer_t :=
  match make_channel id typ ini with
  | inl err => (inl err, p)
  | inr channel =>
      (inr channel,
       mk_peer (addr p) (<[channel_id channel := channel]> (channels p)))
  end.

Definition push_rcv_pkt (p : peer_t) (pkt : pkt_t)
    : option error * peer_t * effects :=
  let pkt := mk_pkt (hdr pkt) (addr p) (body pkt) in
  if decide (C (hdr pkt) = EmptyString) then (Some errInvalidPkt, p, no_effects)
  else
    match channels p !! C (hdr pkt) with
    | Some channel =>
        (channel_push_rcv_pkt channel pkt, p, mk_effects [(channel, pkt)] [])
    | None =>
        match Seq (hdr pkt) with
        | Some 0 =>
            if decide (Type_ (hdr pkt) = EmptyString)
            then (Some errInvalidPkt, p, no_effects)
            else
              match peer_make_channel p (C (hdr pkt)) (Type_ (hdr pkt)) false with
              | (inl err, p') => (Some err, p', no_effects)
              | (inr channel, p') =>
                  match channel_push_rcv_pkt channel pkt with
                  | Some err => (Some err, p', mk_effects [(channel, pkt)] [])
                  | None => (None, p', mk_effects [(channel, pkt)] [channel])
                  end
              end
        | _ => (Some errInvalidPkt, p, no_effects)
        end
    end.

(** The first packet of a channel: sequence number set and 0, a type and a
    channel id. *)
Definition opens_channel (h : hdr_t) : Prop :=
  Seq h = Some 0 /\ Type_ h <> EmptyString /\ C h <> EmptyString.

#[global] Instance opens_channel_dec h : Decision (opens_channel h).
Proof. unfold opens_channel. apply _. Defined.

(** Every channel of the table is entered under its own id, as
    [peer_t.make_channel] enters it. *)
Definition keyed_by_id (p : peer_t) : Prop :=
  forall id channel,
    channels p !! id = Some channel -> channel_id channel = id.

(** [tick]: [closed_after] tells of a channel whether [is_closed] holds once
    the acknowledgement has been sent and the deadlines looked at; the ids of
    the channels it holds for are deleted from the table. *)
Definition tick (closed_after : channel_t -> bool) (p : peer_t) : peer_t :=
  let all := (map_to_list (channels p)).*2 in
  let closed := channel_id <$> filter (fun c => closed_after c = true) all in
  mk_peer (addr p) (foldl (fun m id => delete id m) (channels p) closed).

(** [peer_t.open_channel]: what is returned, the peer when the call ends,
    and what was handed to [channel_t.snd_pkt], which is declared outside
    the sources at hand. *)
Variable channel_snd_pkt : channel_t -> pkt_t -> option error.

Definition open_channel (p : peer_t) (pkt : pkt_t)
    : (error + channel_t) * peer_t * list (channel_t * pkt_t) :=
  match peer_make_channel p EmptyString (Type_ (hdr pkt)) true with
  | (inl err, p') => (inl err, p', [])
  | (inr channel, p') =>
      match channel_snd_pkt channel pkt with
      | Some err => (inl err, p', [(channel, pkt)])
      | None => (inr channel, p', [(channel, pkt)])
      end
  end.

(** The line of a peer: [line_t] is a pointer, [line_t.snd_pkt] is declared
    outside the sources at hand. *)
Inductive snd_error : Set :=
  | errNoOpenLine
  | errLine (msg : string).

Variable line_snd_pkt : nat -> pkt_t -> option snd_error.

Record peer_line : Type := mk_peer_line {
  line_addr : addr_t;
  line : option nat
}.

(** [peer_t.snd_pkt]: the error, and what was handed to the line. *)
Definition snd_pkt (p : peer_line) (pkt : pkt_t)
    : option snd_error * list (nat * pkt_t) :=
  match line p with
  | None => (Some errNoOpenLine, [])
  | Some l =>
      let pkt := mk_pkt (hdr pkt) (line_addr p) (body pkt) in
      (line_snd_pkt l pkt, [(l, pkt)])
  end.

Definition has_open_line (p : peer_line) : bool :=
  bool_decide (line p <> None).

Definition activate_line (l : option nat) (p : peer_line) : peer_line :=
  mk_peer_line (line_addr p) l.

Definition deactivate_line (l : option nat) (p : peer_line) : peer_line :=
  if decide (line p = l) then mk_peer_line (line_addr p) None else p.

(** The three ways the call ends for a packet whose channel id is in no
    channel of the peer. *)
Lemma push_rcv_pkt_refused p pkt :
  channels p !! C (hdr pkt) = None ->
  ~ opens_channel (hdr pkt) ->
  push_rcv_pkt p pkt = (Some errInvalidPkt, p, no_effects).
Proof.
  intros Hnone Hno. unfold push_rcv_pkt. simpl.
  destruct (decide (C (hdr pkt) = EmptyString)) as [|Hc]; [done |].
  rewrite Hnone.
  destruct (Seq (hdr pkt)) as [[| |]|] eqn:Hseq; try done.
  destruct (decide (Type_ (hdr pkt) = EmptyString)) as [|Htyp]; [done |].
  exfalso. apply Hno. done.
Qed.

Lemma push_rcv_pkt_opened p pkt channel :
  channels p !! C (hdr pkt) = None ->
  opens_channel (hdr pkt) ->
  make_channel (C (hdr pkt)) (Type_ (hdr pkt)) false = inr channel ->
  let pkt' := mk_pkt (hdr pkt) (addr p) (body pkt) in
  push_rcv_pkt p pkt =
  (channel_push_rcv_pkt channel pkt',
   mk_peer (addr p) (<[channel_id channel := channel]> (channels p)),
   mk_effects [(channel, pkt')]
     (match channel_push_rcv_pkt channel pkt' with
      | Some _ => []
      | None => [channel]
      end)).
Proof.
  intros Hnone (Hseq & Htyp & Hc) Hmk. unfold push_rcv_pkt, peer_make_channel.
  simpl. rewrite decide_False by done. rewrite Hnone, Hseq.
  rewrite decide_False by done. rewrite Hmk.
  by destruct (channel_push_rcv_pkt channel _).
Qed.

Lemma push_rcv_pkt_not_built p pkt err :
  channels p !! C (hdr pkt) = None ->
  opens_channel (hdr pkt) ->
  make_channel (C (hdr pkt)) (Type_ (hdr pkt)) false = inl err ->
  push_rcv_pkt p pkt = (Some err, p, no_effects).
Proof.
  intros Hnone (Hseq & Htyp & Hc) Hmk. unfold push_rcv_pkt, peer_make_channel.
  simpl. rewrite decide_False by done. rewrite Hnone, Hseq.
  rewrite decide_False by done. by rewrite Hmk.
Qed.

(** C7 (amended): for a packet whose channel id is in no channel of the
    peer, the answer is [errInvalidPkt], with the table as it was and nothing
    pushed, unless the packet has sequence number 0, a type and a channel
    id.  For such a first packet the constructor decides: when it fails, its
    error is the answer, with the table as it was and nothing pushed; when
    it builds the channel, the channel is entered in the table under its id
    and the packet pushed to it, the answer being that of the push, after
    which the channel stays in the table either way.  So a responder channel
    is entered and the packet pushed to it if and only if the packet has
    sequence number 0, a type and a channel id and the constructor builds
    the channel. *)
Theorem push_rcv_pkt_new_channel p pkt :
  channels p !! C (hdr pkt) = None ->
  (~ opens_channel (hdr pkt) ->
     push_rcv_pkt p pkt = (Some errInvalidPkt, p, no_effects)) /\
  (forall err,
     opens_channel (hdr pkt) ->
     make_channel (C (hdr pkt)) (Type_ (hdr pkt)) false = inl err ->
     push_rcv_pkt p pkt = (Some err, p, no_effects)) /\
  (forall channel,
     opens_channel (hdr pkt) ->
     make_channel (C (hdr pkt)) (Type_ (hdr pkt)) false = inr channel ->
     push_rcv_pkt p pkt =
     (channel_push_rcv_pkt channel (mk_pkt (hdr pkt) (addr p) (body pkt)),
      mk_peer (addr p) (<[channel_id channel := channel]> (channels p)),
      mk_effects [(channel, mk_pkt (hdr pkt) (addr p) (body pkt))]
        (match channel_push_rcv_pkt channel
                 (mk_pkt (hdr pkt) (addr p) (body pkt)) with
         | Some _ => []
         | None => [channel]
         end))) /\
  ((exists channel,
      (push_rcv_pkt p pkt).1.2 =
        mk_peer (addr p) (<[channel_id channel := channel]> (channels p)) /\
      pushed (push_rcv_pkt p pkt).2 =
        [(channel, mk_pkt (hdr pkt) (addr p) (body pkt))])
   <->
   (opens_channel (hdr pkt) /\
    exists channel,
      make_channel (C (hdr pkt)) (Type_ (hdr pkt)) false = inr channel)).
Proof.
  intros Hnone. split_and!.
  - by apply push_rcv_pkt_refused.
  - intros err. by apply push_rcv_pkt_not_built.
  - intros channel Hop Hmk.
    by rewrite (push_rcv_pkt_opened p pkt channel Hnone Hop Hmk).
  - split.
    + intros (channel & _ & Hpushed).
      destruct (decide (opens_channel (hdr pkt))) as [Hop|Hno].
      * split; [done |].
        destruct (make_channel (C (hdr pkt)) (Type_ (hdr pkt)) false)
          as [err|built] eqn:Hmk; [| by exists built].
        by rewrite (push_rcv_pkt_not_built p pkt err Hnone Hop Hmk)
          in Hpushed.
      * by rewrite (push_rcv_pkt_refused p pkt Hnone Hno) in Hpushed.
    + intros (Hop & channel & Hmk). exists channel.
      by rewrite (push_rcv_pkt_opened p pkt channel Hnone Hop Hmk).
Qed.

Lemma push_rcv_pkt_found p pkt channel :
  C (hdr pkt) <> EmptyString ->
  channels p !! C (hdr pkt) = Some channel ->
  push_rcv_pkt p pkt =
  (channel_push_rcv_pkt channel (mk_pkt (hdr pkt) (addr p) (body pkt)), p,
   mk_effects [(channel, mk_pkt (hdr pkt) (addr p) (body pkt))] []).
Proof.
  intros Hc Hch. unfold push_rcv_pkt. simpl.
  rewrite decide_False by done. by rewrite Hch.
Qed.

(** A packet for a channel that exists is pushed to that channel, whatever
    its sequence number and type: no channel is made and no handler
    started. *)
Theorem push_rcv_pkt_existing_channel p pkt channel :
  C (hdr pkt) <> EmptyString ->
  channels p !! C (hdr pkt) = Some channel ->
  let pkt' := mk_pkt (hdr pkt) (addr p) (body pkt) in
  push_rcv_pkt p pkt =
  (channel_push_rcv_pkt channel pkt', p, mk_effects [(channel, pkt')] []).
Proof. intros Hc Hch. by apply push_rcv_pkt_found. Qed.

(** Whatever the packet, the call keeps the peer's address and every id of
    the table, adds at most one channel, and keeps the channels under their
    own ids.  It pushes at most one packet, the one received with the peer's
    address written into it, to a channel that is in the table when the call
    ends; and it starts a handler only for a channel it has just made and
    pushed to without error. *)
Theorem push_rcv_pkt_effects p pkt :
  let err := (push_rcv_pkt p pkt).1.1 in
  let p' := (push_rcv_pkt p pkt).1.2 in
  let eff := (push_rcv_pkt p pkt).2 in
  addr p' = addr p /\
  dom (channels p) ⊆ dom (channels p') /\
  (size (channels p') <= S (size (channels p)))%nat /\
  (keyed_by_id p -> keyed_by_id p') /\
  (length (pushed eff) <= 1)%nat /\
  (forall channel k, (channel, k) ∈ pushed eff ->
     k = mk_pkt (hdr pkt) (addr p) (body pkt) /\
     exists id, channels p' !! id = Some channel) /\
  (forall channel, channel ∈ started eff ->
     err = None /\ channels p !! C (hdr pkt) = None /\
     make_channel (C (hdr pkt)) (Type_ (hdr pkt)) false = inr channel /\
     pushed eff = [(channel, mk_pkt (hdr pkt) (addr p) (body pkt))]).
Proof.
  cbv zeta.
  destruct (push_rcv_pkt p pkt) as [[err p'] eff] eqn:Hrun. simpl.
  assert (Hsame : forall e,
            push_rcv_pkt p pkt = (e, p, no_effects) ->
            addr p' = addr p /\
            dom (channels p) ⊆ dom (channels p') /\
            (size (channels p') <= S (size (channels p)))%nat /\
            (keyed_by_id p -> keyed_by_id p') /\
            (length (pushed eff) <= 1)%nat /\
            (forall channel k, (channel, k) ∈ pushed eff ->
               k = mk_pkt (hdr pkt) (addr p) (body pkt) /\
               exists id, channels p' !! id = Some channel) /\
            (forall channel, channel ∈ started eff ->
               err = None /\ channels p !! C (hdr pkt) = None /\
               make_channel (C (hdr pkt)) (Type_ (hdr pkt)) false
                 = inr channel /\
               pushed eff
                 = [(channel, mk_pkt (hdr pkt) (addr p) (body pkt))])).
  { intros e He. rewrite He in Hrun. injection Hrun as <- <- <-. simpl.
    split_and!; try done; try lia.
    - intros channel k Hin. by apply elem_of_nil in Hin.
    - intros channel Hin. by apply elem_of_nil in Hin. }
  destruct (decide (C (hdr pkt) = EmptyString)) as [Hc|Hc].
  { apply (Hsame (Some errInvalidPkt)). unfold push_rcv_pkt. simpl.
    by rewrite decide_True. }
  destruct (channels p !! C (hdr pkt)) as [channel|] eqn:Hch.
  { rewrite (push_rcv_pkt_found p pkt channel Hc Hch) in Hrun.
    injection Hrun as <- <- <-. simpl.
    split_and!; try done; try lia.
    - intros ch k Hin. apply list_elem_of_singleton in Hin.
      injection Hin as -> ->. eauto.
    - intros ch Hin. by apply elem_of_nil in Hin. }
  destruct (decide (opens_channel (hdr pkt))) as [Hop|Hno].
  2: { apply (Hsame (Some errInvalidPkt)).
       by apply push_rcv_pkt_refused. }
  destruct (make_channel (C (hdr pkt)) (Type_ (hdr pkt)) false)
    as [e|channel] eqn:Hmk.
  { apply (Hsame (Some e)). by apply push_rcv_pkt_not_built. }
  rewrite (push_rcv_pkt_opened p pkt channel Hch Hop Hmk) in Hrun.
  injection Hrun as <- <- <-. simpl.
  split_and!; try done; try lia.
  - rewrite dom_insert_L. apply union_subseteq_r.
  - destruct (channels p !! channel_id channel) eqn:Hold.
    + erewrite map_size_insert_Some by eauto. lia.
    + rewrite map_size_insert_None by done. lia.
  - intros Hkey id ch. simpl.
    destruct (decide (id = channel_id channel)) as [->|Hid].
    + rewrite lookup_insert_eq. by intros [= <-].
    + rewrite lookup_insert_ne by done. apply Hkey.
  - intros ch k Hin. apply list_elem_of_singleton in Hin.
    injection Hin as -> ->. split; [done |].
    exists (channel_id channel). by rewrite lookup_insert_eq.
  - intros ch Hin.
    destruct (channel_push_rcv_pkt channel _);
      [by apply elem_of_nil in Hin |].
    by apply list_elem_of_singleton in Hin as ->.
Qed.

Lemma foldl_delete_lookup (ids : list string) (m : gmap string channel_t) id :
  foldl (fun m id => delete id m) m ids !! id =
  if decide (id ∈ ids) then None else m !! id.
Proof.
  revert m. induction ids as [|i ids IH]; intros m.
  - destruct (decide (id ∈ [])) as [Hin|_]; [| done].
    by apply elem_of_nil in Hin.
  - cbn [foldl]. rewrite IH.
    destruct (decide (id ∈ ids)) as [Hin|Hin].
    + by rewrite decide_True by (by apply list_elem_of_further).
    + destruct (decide (id = i)) as [->|Hne].
      * rewrite decide_True by apply list_elem_of_here.
        apply lookup_delete_eq.
      * rewrite decide_False by (by intros [?|?]%elem_of_cons).
        by apply lookup_delete_ne.
Qed.

(** [tick] only ever takes channels out of the table; with the channels
    under their own ids, it takes out exactly those that are closed once it
    has looked at them. *)
Theorem tick_removes_closed (closed_after : channel_t -> bool) p :
  addr (tick closed_after p) = addr p /\
  channels (tick closed_after p) ⊆ channels p /\
  (keyed_by_id p ->
   keyed_by_id (tick closed_after p) /\
   forall id,
     channels (tick closed_after p) !! id =
     match channels p !! id with
     | Some channel => if closed_after channel then None else Some channel
     | None => None
     end).
Proof.
  unfold tick. simpl. split; [done |]. split.
  - apply map_subseteq_spec. intros id ch.
    rewrite foldl_delete_lookup. by destruct (decide _).
  - intros Hkey.
    assert (Hlook : forall id,
              foldl (fun m id => delete id m) (channels p)
                (channel_id <$> filter (fun c => closed_after c = true)
                                  (map_to_list (channels p)).*2) !! id =
              match channels p !! id with
              | Some channel =>
                  if closed_after channel then None else Some channel
              | None => None
              end).
    { intros id. rewrite foldl_delete_lookup.
      destruct (channels p !! id) as [ch|] eqn:Hid.
      - destruct (closed_after ch) eqn:Hcl.
        + rewrite decide_True; [done |].
          apply list_elem_of_fmap. exists ch. split; [by rewrite (Hkey id ch) |].
          apply list_elem_of_filter. split; [done |].
          apply list_elem_of_fmap. exists (id, ch). split; [done |].
          by apply elem_of_map_to_list.
        + rewrite decide_False; [done |].
          intros (ch' & Heq & Hin)%list_elem_of_fmap.
          apply list_elem_of_filter in Hin as [Hcl' Hin].
          apply list_elem_of_fmap in Hin as ([id' ch''] & -> & Hin).
          apply elem_of_map_to_list in Hin. simpl in *.
          rewrite (Hkey id' ch'' Hin) in Heq. subst id'.
          congruence.
      - by destruct (decide _). }
    split; [| exact Hlook].
    intros id ch. simpl. rewrite Hlook.
    destruct (channels p !! id) as [ch'|] eqn:Hid; [| done].
    destruct (closed_after ch'); [done |]. intros [= <-]. by apply Hkey.
Qed.

(** [open_channel] has the constructor build an initiator channel of the
    packet's type, leaving the choice of the id to it.  If the constructor
    fails, its error is returned and the peer is as it was.  If it builds
    the channel, the channel is in the table under its id when the call
    ends and the packet has been handed to it as it came; this is so also
    when that sending fails and the caller gets the error and no
    channel. *)
Theorem open_channel_enters_channel p pkt :
  (forall err,
     make_channel EmptyString (Type_ (hdr pkt)) true = inl err ->
     open_channel p pkt = (inl err, p, [])) /\
  (forall channel,
     make_channel EmptyString (Type_ (hdr pkt)) true = inr channel ->
     let '(r, p', sent) := open_channel p pkt in
     channels p' = <[channel_id channel := channel]> (channels p) /\
     addr p' = addr p /\
     sent = [(channel, pkt)] /\
     r = match channel_snd_pkt channel pkt with
         | Some err => inl err
         | None => inr channel
         end).
Proof.
  unfold open_channel, peer_make_channel. split.
  - by intros err ->.
  - intros channel ->. by destruct (channel_snd_pkt channel pkt).
Qed.

(** The line of a peer: without a line a packet is dropped with
    [errNoOpenLine]; on an active line it goes to that line with the peer's
    address written into it; deactivating the active line leaves none, and
    deactivating any other line, a stale one, leaves the active line in
    place. *)
Theorem line_life_cycle (p : peer_line) (l : nat) (pkt : pkt_t) :
  (has_open_line p = false <-> snd_pkt p pkt = (Some errNoOpenLine, [])) /\
  has_open_line (activate_line (Some l) p) = true /\
  snd_pkt (activate_line (Some l) p) pkt =
    (line_snd_pkt l (mk_pkt (hdr pkt) (line_addr p) (body pkt)),
     [(l, mk_pkt (hdr pkt) (line_addr p) (body pkt))]) /\
  snd_pkt (deactivate_line (Some l) (activate_line (Some l) p)) pkt
    = (Some errNoOpenLine, []) /\
  (forall l', l' <> Some l ->
     deactivate_line l' (activate_line (Some l) p)
       = activate_line (Some l) p).
Proof.
  unfold has_open_line, snd_pkt, deactivate_line, activate_line. simpl.
  split_and!.
  - destruct (line p) as [l0|].
    + rewrite bool_decide_eq_false. split; [intros Hb; by destruct Hb | done].
    + rewrite bool_decide_eq_false. split; [done |]. intros _ Hb. by apply Hb.
  - done.
  - done.
  - by rewrite decide_True.
  - intros l' Hl'. by rewrite decide_False.
Qed.

End Dispatch.

Lemma push_rcv_pkt_new_channel_witness :
  let make_channel := fun id typ ini => inr (mk_channel id typ ini) in
  let accept := fun (_ : channel_t) (_ : @pkt_t string) => @None error in
  let p := mk_peer "4w0fh69ad6d1xhncwwjcv3cfcegv6ra3"%string ∅ in
  let pkt :=
    mk_pkt (mk_hdr "ab12cd34ef56ab78" "_greetings" (Some 0)) ""%string
           [104; 105] in
  (push_rcv_pkt make_channel accept p pkt).1.1 = None /\
  channels (push_rcv_pkt make_channel accept p pkt).1.2
    !! "ab12cd34ef56ab78"%string
    = Some (mk_channel "ab12cd34ef56ab78" "_greetings" false).
Proof.
  cbv zeta.
  destruct (push_rcv_pkt_new_channel
              (fun id typ ini => inr (mk_channel id typ ini))
              (fun (_ : channel_t) (_ : @pkt_t string) => @None error)
              (mk_peer "4w0fh69ad6d1xhncwwjcv3cfcegv6ra3"%string ∅)
              (mk_pkt (mk_hdr "ab12cd34ef56ab78" "_greetings" (Some 0))
                      ""%string [104; 105]))
    as (_ & _ & Hbuilt & _).
  - reflexivity.
  - rewrite (Hbuilt (mk_channel "ab12cd34ef56ab78" "_greetings" false)).
    + split; [reflexivity |]. simpl. apply lookup_insert_eq.
    + unfold opens_channel. simpl. repeat split; discriminate.
    + reflexivity.
Defined.

(** C7 as stated fails where the constructor refuses the channel: a packet
    with sequence number 0, a type and a channel id that is in no channel of
    the peer opens no channel, and the answer is the constructor's error,
    not [errInvalidPkt]. *)
Lemma push_rcv_pkt_constructor_refuses :
  let refuse := fun (_ _ : string) (_ : bool) =>
    @inl error channel_t (errOther "unknown channel type") in
  let accept := fun (_ : channel_t) (_ : @pkt_t string) => @None error in
  let p := mk_peer "4w0fh69ad6d1xhncwwjcv3cfcegv6ra3"%string ∅ in
  let pkt :=
    mk_pkt (mk_hdr "ab12cd34ef56ab78" "_greetings" (Some 0)) ""%string [1] in
  channels p !! C (hdr pkt) = None /\
  Seq (hdr pkt) = Some 0 /\
  Type_ (hdr pkt) <> EmptyString /\
  push_rcv_pkt refuse accept p pkt =
    (Some (errOther "unknown channel type"), p, no_effects) /\
  (push_rcv_pkt refuse accept p pkt).1.1 <> Some errInvalidPkt.
Proof. cbv zeta. split_and!; (reflexivity || discriminate). Qed.

Lemma push_rcv_pkt_existing_channel_witness :
  let make_channel := fun id typ ini => inr (mk_channel id typ ini) in
  let accept := fun (_ : channel_t) (_ : @pkt_t string) => @None error in
  let channel := mk_channel "ab12cd34ef56ab78" "_greetings" false in
  let p := mk_peer "4w0fh69ad6d1xhncwwjcv3cfcegv6ra3"%string
             {["ab12cd34ef56ab78"%string := channel]} in
  let pkt := mk_pkt (mk_hdr "ab12cd34ef56ab78" "" (Some 7)) ""%string [1] in
  push_rcv_pkt make_channel accept p pkt =
  (None, p,
   mk_effects
     [(channel,
       mk_pkt (mk_hdr "ab12cd34ef56ab78" "" (Some 7))
              "4w0fh69ad6d1xhncwwjcv3cfcegv6ra3"%string [1])] []).
Proof.
  cbv zeta.
  apply (push_rcv_pkt_existing_channel
           (fun id typ ini => inr (mk_channel id typ ini))
           (fun (_ : channel_t) (_ : @pkt_t string) => @None error)
           (mk_peer "4w0fh69ad6d1xhncwwjcv3cfcegv6ra3"%string
              {["ab12cd34ef56ab78"%string :=
                  mk_channel "ab12cd34ef56ab78" "_greetings" false]})
           (mk_pkt (mk_hdr "ab12cd34ef56ab78" "" (Some 7)) ""%string [1])).
  - discriminate.
  - apply lookup_singleton_eq.
Defined.

End Peer.

(** ** The Chord transport's tables (package chord) *)

Module Chord.

(** [chord.Vnode] of the go-chord library: an id and the host it lives on,
    here the hashname of an endpoint. *)
Record Vnode : Set := mk_Vnode {
  Id : list Z;
  Host : string
}.

(** A function that stops in a run-time panic has no result. *)
Inductive run (A : Type) : Type :=
  | Done (a : A)
  | Panic.

Arguments Done {A} a.
Arguments Panic {A}.

Section Tables.

(** Identities are those of [E3x]; [Vnode.String] is go-chord's; a
    [chord.VnodeRPC] is an interface value, [None] when [nil]. *)
Context {ResolvedAddr : Type}.
Variable Vnode_String : Vnode -> string.

(** The type [completeVnode]: a vnode on the wire, its id in hex and the
    identity of its host, [nil] when the sender did not know it. *)
Record completeVnode_t : Type := mk_completeVnode {
  cv_Id : string;
  cv_Addr : option (@E3x.Addr ResolvedAddr)
}.

(** [transport.completeVnode]. *)
Definition completeVnode (addressTable : gmap string (@E3x.Addr ResolvedAddr))
    (vn : option Vnode) : option completeVnode_t :=
  match vn with
  | None => None
  | Some vn =>
      Some (mk_completeVnode (E3x.hex (Id vn)) (addressTable !! Host vn))
  end.

(** [transport.internalVnode]: the vnode, and the address table when the
    call ends.  [c.Addr.Hashname()] reads a field of [c.Addr]. *)
Definition internalVnode (addressTable : gmap string (@E3x.Addr ResolvedAddr))
    (c : option completeVnode_t)
    : run (option Vnode * gmap string (@E3x.Addr ResolvedAddr)) :=
  match c with
  | None => Done (None, addressTable)
  | Some c =>
      match E3x.unhex (cv_Id c) with
      | None => Done (None, addressTable)
      | Some id =>
          match cv_Addr c with
          | None => Panic
          | Some a =>
              Done (Some (mk_Vnode id (E3x.hashname a)),
                    <[E3x.hashname a := a]> addressTable)
          end
      end
  end.

(** [transport.completeVnodes]: position by position, [nil] staying
    [nil]. *)
Definition completeVnodes (addressTable : gmap string (@E3x.Addr ResolvedAddr))
    (vn : list (option Vnode)) : list (option completeVnode_t) :=
  completeVnode addressTable <$> vn.

(** The loop of [transport.internalVnodes]: [vn] holds the positions done;
    an id that is no hex ends the call with [nil], after the identities
    before it were entered. *)
Fixpoint internalVnodes_from
    (addressTable : gmap string (@E3x.Addr ResolvedAddr))
    (c : list (option completeVnode_t)) (vn : list (option Vnode))
    : run (list (option Vnode) * gmap string (@E3x.Addr ResolvedAddr)) :=
  match c with
  | [] => Done (vn, addressTable)
  | None :: rest => internalVnodes_from addressTable rest (vn ++ [None])
  | Some a :: rest =>
      match E3x.unhex (cv_Id a) with
      | None => Done ([], addressTable)
      | Some id =>
          match cv_Addr a with
          | None => Panic
          | Some addr =>
              internalVnodes_from (<[E3x.hashname addr := addr]> addressTable)
                rest (vn ++ [Some (mk_Vnode id (E3x.hashname addr))])
          end
      end
  end.

Definition internalVnodes (addressTable : gmap string (@E3x.Addr ResolvedAddr))
    (c : list (option completeVnode_t))
    : run (list (option Vnode) * gmap string (@E3x.Addr ResolvedAddr)) :=
  internalVnodes_from addressTable c [].

Definition lookupAddr (addressTable : gmap string (@E3x.Addr ResolvedAddr))
    (hn : string) : option (@E3x.Addr ResolvedAddr) :=
  addressTable !! hn.

Definition registerAddr (addressTable : gmap string (@E3x.Addr ResolvedAddr))
    (addr : option (@E3x.Addr ResolvedAddr))
    : gmap string (@E3x.Addr ResolvedAddr) :=
  match addr with
  | None => addressTable
  | Some addr => <[E3x.hashname addr := addr]> addressTable
  end.

(** [transport.Register] and [transport.lookupRPC] on the table of local
    vnodes; [handlePing] answers alive when [lookupRPC] finds an RPC. *)
Definition Register (localVnodes : gmap string (Vnode * option nat))
    (vn : Vnode) (rpc : option nat) : gmap string (Vnode * option nat) :=
  <[Vnode_String vn := (vn, rpc)]> localVnodes.

Definition lookupRPC (localVnodes : gmap string (Vnode * option nat))
    (id : string) : option nat :=
  match localVnodes !! id with
  | Some (_, rpc) => rpc
  | None => None
  end.

Definition handlePing_alive (localVnodes : gmap string (Vnode * option nat))
    (id : string) : bool :=
  match lookupRPC localVnodes id with
  | None => false
  | Some _ => true
  end.

(** Every identity of the address table is entered under its own
    hashname. *)
Definition keyed_by_hashname
    (addressTable : gmap string (@E3x.Addr ResolvedAddr)) : Prop :=
  forall hn addr, addressTable !! hn = Some addr -> E3x.hashname addr = hn.

Definition is_bytes (bs : list Z) : Prop := Forall (fun b => 0 <= b < 256) bs.

Lemma unhex_hex_digit (n : Z) :
  0 <= n < 16 -> E3x.unhex_digit (E3x.hex_digit n) = Some n.
Proof.
  intros Hn. destruct n as [|q|q]; [reflexivity | | lia].
  do 4 (destruct q as [q|q|]; try lia; try reflexivity).
Qed.

Lemma unhex_hex (bs : list Z) :
  is_bytes bs -> E3x.unhex (E3x.hex bs) = Some bs.
Proof.
  induction 1 as [|b bs Hb _ IH]; [reflexivity |].
  change (E3x.hex (b :: bs))
    with (String (E3x.hex_digit (b / 16))
            (String (E3x.hex_digit (b mod 16)) (E3x.hex bs))).
  cbn [E3x.unhex]. rewrite IH.
  rewrite !unhex_hex_digit
    by (try apply Z.mod_pos_bound; try (split; [apply Z.div_pos | apply Z.div_lt_upper_bound]); lia).
  f_equal. f_equal. rewrite (Z.div_mod b 16) at 3 by lia. lia.
Qed.

Lemma internalVnodes_from_round_trip
    (t : gmap string (@E3x.Addr ResolvedAddr)) vns done :
  keyed_by_hashname t ->
  Forall (fun vn => match vn with
                    | Some vn => is_bytes (Id vn) /\ is_Some (t !! Host vn)
                    | None => True
                    end) vns ->
  internalVnodes_from t (completeVnodes t vns) done = Done (done ++ vns, t).
Proof.
  intros Hkey Hvns. revert done.
  induction Hvns as [|[[id host]|] vns Hvn _ IH]; intros done.
  - by rewrite app_nil_r.
  - destruct Hvn as [Hid [a Ha]]. simpl in *.
    rewrite (unhex_hex id Hid), Ha. rewrite (Hkey host a Ha).
    rewrite insert_id by done.
    unfold completeVnodes in IH. rewrite IH, <- app_assoc. reflexivity.
  - simpl. unfold completeVnodes in IH. rewrite IH, <- app_assoc.
    reflexivity.
Qed.

(** Vnodes survive the wire: with the address table keyed by hashname, a
    list of vnodes whose ids are bytes and whose hosts are in the table
    comes back from [internalVnodes] as it went into [completeVnodes], and
    the table is as it was; and so does each of them one by one. *)
Theorem internalVnodes_completeVnodes
    (t : gmap string (@E3x.Addr ResolvedAddr)) vns :
  keyed_by_hashname t ->
  Forall (fun vn => match vn with
                    | Some vn => is_bytes (Id vn) /\ is_Some (t !! Host vn)
                    | None => True
                    end) vns ->
  internalVnodes t (completeVnodes t vns) = Done (vns, t) /\
  Forall (fun vn => internalVnode t (completeVnode t vn) = Done (vn, t)) vns.
Proof.
  intros Hkey Hvns. split.
  - unfold internalVnodes. by rewrite internalVnodes_from_round_trip.
  - eapply Forall_impl; [exact Hvns |].
    intros [[id host]|]; [| done]. intros [Hid [a Ha]]. simpl in *.
    rewrite (unhex_hex id Hid), Ha. rewrite (Hkey host a Ha).
    by rewrite insert_id.
Qed.

(** A vnode whose host the sender does not have in its address table goes
    out with a [nil] identity, and the receiver, whatever its table, panics
    on it: in [internalVnode], and in [internalVnodes] for any list that
    holds such a vnode. *)
Theorem internalVnode_unknown_host_panics
    (t t' : gmap string (@E3x.Addr ResolvedAddr)) vn :
  is_bytes (Id vn) -> t !! Host vn = None ->
  internalVnode t' (completeVnode t (Some vn)) = Panic /\
  (forall vns,
     Forall (fun v => match v with
                      | Some v => is_bytes (Id v)
                      | None => True
                      end) vns ->
     Some vn ∈ vns ->
     internalVnodes t' (completeVnodes t vns) = Panic).
Proof.
  intros Hid Hhost. split.
  - simpl. by rewrite (unhex_hex _ Hid), Hhost.
  - intros vns Hvns Hin. unfold internalVnodes. generalize (@nil (option Vnode)).
    revert t'. induction Hvns as [|v vns Hv _ IH]; intros t' done.
    + by apply elem_of_nil in Hin.
    + apply elem_of_cons in Hin as [<-|Hin].
      * simpl. by rewrite (unhex_hex _ Hid), Hhost.
      * destruct v as [v|]; simpl.
        -- rewrite (unhex_hex _ Hv).
           destruct (t !! Host v); [| done]. by apply IH.
        -- by apply IH.
Qed.

Lemma internalVnodes_from_registers
    (t t' : gmap string (@E3x.Addr ResolvedAddr)) c done vns :
  internalVnodes_from t c done = Done (vns, t') ->
  dom t ⊆ dom t' /\
  (keyed_by_hashname t -> keyed_by_hashname t') /\
  (Forall (fun vn => match vn with
                     | Some vn => is_Some (lookupAddr t (Host vn))
                     | None => True
                     end) done ->
   Forall (fun vn => match vn with
                     | Some vn => is_Some (lookupAddr t' (Host vn))
                     | None => True
                     end) vns) /\
  (vns = [] \/ length vns = (length done + length c)%nat).
Proof.
  revert t done. induction c as [|[a|] c IH]; intros t done; simpl.
  - intros [= <- <-]. split_and!; try done. right. lia.
  - destruct (E3x.unhex (cv_Id a)) as [id|].
    2: { intros [= <- <-]. split_and!; try done. by left. }
    destruct (cv_Addr a) as [addr|]; [| done].
    intros Hrun. apply IH in Hrun as (Hdom & Hkey & Hreg & Hlen).
    assert (Hsub : dom t ⊆ dom (<[E3x.hashname addr := addr]> t)).
    { rewrite dom_insert_L. apply union_subseteq_r. }
    split_and!.
    + by etrans.
    + intros Ht. apply Hkey. intros hn x.
      destruct (decide (hn = E3x.hashname addr)) as [->|Hne].
      * rewrite lookup_insert_eq. by intros [= <-].
      * rewrite lookup_insert_ne by done. apply Ht.
    + intros Hdone. apply Hreg. apply Forall_app. split.
      * eapply Forall_impl; [exact Hdone |]. intros [v|]; [| done].
        unfold lookupAddr. rewrite <- !elem_of_dom. apply Hsub.
      * constructor; [| done]. unfold lookupAddr. simpl.
        by rewrite lookup_insert_eq.
    + destruct Hlen as [?|Hlen]; [by left | right].
      rewrite length_app in Hlen. simpl in *. lia.
  - intros Hrun. apply IH in Hrun as (Hdom & Hkey & Hreg & Hlen).
    split_and!; try done.
    + intros Hdone. apply Hreg. apply Forall_app. split; [done |].
      by constructor.
    + destruct Hlen as [?|Hlen]; [by left | right].
      rewrite length_app in Hlen. simpl in *. lia.
Qed.

(** What [internalVnodes] leaves behind when it returns: no hashname has
    left the address table, the table is still keyed by hashname if it was,
    the host of every vnode returned has its identity in the table, so that
    [lookupAddr] finds it, and the list returned is [nil] or as long as the
    list received. *)
Theorem internalVnodes_registers_hosts
    (t t' : gmap string (@E3x.Addr ResolvedAddr)) c vns :
  internalVnodes t c = Done (vns, t') ->
  dom t ⊆ dom t' /\
  (keyed_by_hashname t -> keyed_by_hashname t') /\
  Forall (fun vn => match vn with
                    | Some vn => is_Some (lookupAddr t' (Host vn))
                    | None => True
                    end) vns /\
  (vns = [] \/ length vns = length c).
Proof.
  intros Hrun. apply internalVnodes_from_registers in Hrun
    as (Hdom & Hkey & Hreg & Hlen).
  split_and!; try done. by apply Hreg.
Qed.

(** [registerAddr] ignores [nil], enters an identity under its own hashname,
    where [lookupAddr] then finds it, and keeps the table keyed by
    hashname; [lookupAddr] of a hashname never entered finds nothing. *)
Theorem registerAddr_lookupAddr
    (t : gmap string (@E3x.Addr ResolvedAddr)) (addr : @E3x.Addr ResolvedAddr) :
  registerAddr t None = t /\
  lookupAddr (registerAddr t (Some addr)) (E3x.hashname addr) = Some addr /\
  (forall hn, hn <> E3x.hashname addr ->
     lookupAddr (registerAddr t (Some addr)) hn = lookupAddr t hn) /\
  (keyed_by_hashname t -> keyed_by_hashname (registerAddr t (Some addr))) /\
  (forall hn, lookupAddr (∅ : gmap string (@E3x.Addr ResolvedAddr)) hn = None).
Proof.
  unfold registerAddr, lookupAddr. split_and!; try done.
  - by rewrite lookup_insert_eq.
  - intros hn Hne. by rewrite lookup_insert_ne.
  - intros Ht hn x. destruct (decide (hn = E3x.hashname addr)) as [->|Hne].
    + rewrite lookup_insert_eq. by intros [= <-].
    + rewrite lookup_insert_ne by done. apply Ht.
Qed.

(** A vnode is alive to [handlePing] exactly when it was registered, under
    the text of its id, with an RPC that is not [nil]; a later [Register]
    under the same text replaces the earlier one, and other ids are not
    affected. *)
Theorem Register_lookupRPC (lv : gmap string (Vnode * option nat))
    (vn : Vnode) (rpc : option nat) :
  lookupRPC (Register lv vn rpc) (Vnode_String vn) = rpc /\
  (handlePing_alive (Register lv vn rpc) (Vnode_String vn) = true
     <-> rpc <> None) /\
  (forall vn' rpc', Vnode_String vn' = Vnode_String vn ->
     lookupRPC (Register (Register lv vn rpc) vn' rpc') (Vnode_String vn)
       = rpc') /\
  (forall id, id <> Vnode_String vn ->
     lookupRPC (Register lv vn rpc) id = lookupRPC lv id) /\
  (forall id, handlePing_alive ∅ id = false).
Proof.
  unfold handlePing_alive, lookupRPC, Register. split_and!.
  - by rewrite lookup_insert_eq.
  - rewrite lookup_insert_eq. by destruct rpc.
  - intros vn' rpc' ->. by rewrite lookup_insert_eq.
  - intros id Hne. by rewrite lookup_insert_ne.
  - done.
Qed.

End Tables.

Lemma internalVnodes_completeVnodes_witness :
  let alice := @E3x.mk_Addr string "alice" ∅ ∅ ["10.0.0.1:4000"%string] in
  let t : gmap string (@E3x.Addr string) := {["alice"%string := alice]} in
  internalVnodes t (completeVnodes t [Some (mk_Vnode [1; 254] "alice"); None])
    = Done ([Some (mk_Vnode [1; 254] "alice"); None], t).
Proof.
  cbv zeta.
  apply (internalVnodes_completeVnodes
           ({["alice"%string :=
                @E3x.mk_Addr string "alice" ∅ ∅ ["10.0.0.1:4000"%string]]}
              : gmap string (@E3x.Addr string))
           [Some (mk_Vnode [1; 254] "alice"); None]).
  - intros hn addr [<- <-]%lookup_singleton_Some. reflexivity.
  - repeat constructor; try (simpl; lia).
    exists (@E3x.mk_Addr string "alice" ∅ ∅ ["10.0.0.1:4000"%string]).
    apply lookup_singleton_eq.
Defined.

Lemma internalVnode_unknown_host_panics_witness :
  internalVnode (∅ : gmap string (@E3x.Addr string))
    (completeVnode (∅ : gmap string (@E3x.Addr string))
       (Some (mk_Vnode [1; 254] "bob")))
  = Panic.
Proof.
  apply (internalVnode_unknown_host_panics
           (∅ : gmap string (@E3x.Addr string)) ∅ (mk_Vnode [1; 254] "bob")).
  - repeat constructor; simpl; lia.
  - apply lookup_empty.
Defined.

Lemma internalVnodes_registers_hosts_witness :
  let alice := @E3x.mk_Addr string "alice" ∅ ∅ ["10.0.0.1:4000"%string] in
  exists t',
    internalVnodes ∅ [Some (mk_completeVnode "01fe" (Some alice))]
      = Done ([Some (mk_Vnode [1; 254] "alice")], t') /\
    is_Some (lookupAddr t' "alice").
Proof.
  cbv zeta. eexists. split; [vm_compute; reflexivity |].
  destruct (internalVnodes_registers_hosts
              (∅ : gmap string (@E3x.Addr string))
              (<["alice"%string :=
                   @E3x.mk_Addr string "alice" ∅ ∅ ["10.0.0.1:4000"%string]]> ∅)
              [Some (mk_completeVnode "01fe"
                 (Some (@E3x.mk_Addr string "alice" ∅ ∅
                          ["10.0.0.1:4000"%string])))]
              [Some (mk_Vnode [1; 254] "alice")])
    as (_ & _ & Hreg & _).
  - reflexivity.
  - by apply Forall_cons in Hreg as [Hreg _].
Defined.

End Chord.
